(** * OpenGL renderer options of the Qt front end (qt_opengloptions.cpp/.hpp)

    A shallow embedding of [OpenGLOptions] and [OpenGLShaderPass]: the
    render options, the loading of a shader file or of a multi-pass preset,
    the two regular expressions that strip [#pragma parameter] and
    [#version] lines, the header put in front of each stage, the fallback
    to the default shader, and [save].

    Qt, the GL driver, the file system and the globals of 86box.h are not
    part of the two files; they appear as the fields of a [Backend] and of
    a [Config] record.  The general theorems hold for every backend; the
    runs at the end are on one small backend, [Fixture.backend]. *)

From Stdlib Require Import Ascii String ZArith QArith Bool Arith Lia List.
Import ListNotations.

Set Implicit Arguments.

Local Open Scope nat_scope.
Local Open Scope list_scope.

(** ** Text *)

(** A [QString] or [QByteArray] is the list of its characters, taken from
    the 256 of [ascii]; the classes of the two patterns hold ASCII
    characters only. *)
Definition QString := list ascii.
Definition QByteArray := list ascii.

(** A C++ string literal. *)
Definition txt (s : string) : QString := list_ascii_of_string s.

Definition newline : ascii := ascii_of_nat 10.
Definition quote : ascii := ascii_of_nat 34.

(** A line of text with its line feed. *)
Definition nl (s : string) : QString := txt s ++ [newline].

Definition eqc (a b : ascii) : bool := Ascii.eqb a b.

Fixpoint eqs (a b : QString) : bool :=
  match a, b with
  | [], [] => true
  | x :: a', y :: b' => eqc x y && eqs a' b'
  | _, _ => false
  end.

(** ** Regular expressions

    The part of the pattern language of [QRegularExpression] that the two
    patterns of [addShader] use.  Matching is the backtracking search of
    PCRE: alternatives are tried in priority order (a greedy quantifier
    tries the longest repetition first, a lazy one the shortest) and the
    first one that lets the rest of the pattern match wins. *)
Module Rx.

Definition cclass := ascii -> bool.

Definition between (lo hi : nat) (c : ascii) : bool :=
  (lo <=? nat_of_ascii c) && (nat_of_ascii c <=? hi).

(** [\s]: tab, line feed, vertical tab, form feed, carriage return, space. *)
Definition space : cclass := fun c => between 9 13 c || eqc c " ".
(** [\d] *)
Definition digit : cclass := between 48 57.
(** [\w] *)
Definition word : cclass :=
  fun c => between 97 122 c || between 65 90 c || digit c || eqc c "_".
(** [[\.\d]] *)
Definition dot_or_digit : cclass := fun c => eqc c "." || digit c.
(** [.], which does not match a line feed. *)
Definition any : cclass := fun c => negb (eqc c newline).

Inductive regex : Type :=
| Eps
| Bol                         (* ^ under MultilineOption *)
| Lit (s : QString)           (* literal text *)
| Cls (c : cclass)            (* one character of a class *)
| Star (c : cclass)           (* c*  *)
| LazyStar (c : cclass)       (* c*? *)
| Opt (r : regex)             (* r?  *)
| Cap (n : nat) (r : regex)   (* capture group n *)
| Cat (r1 r2 : regex).

(** [c+] *)
Definition Plus (c : cclass) : regex := Cat (Cls c) (Star c).

Fixpoint seq (l : list regex) : regex :=
  match l with
  | [] => Eps
  | [r] => r
  | r :: t => Cat r (seq t)
  end.

(** A position in the subject: the text on its left (nearest character
    first), the text on its right, and the groups captured so far. *)
Record cursor : Type := Cursor {
  before : list ascii;
  after : list ascii;
  caps : list (nat * QString)
}.

Definition position (cur : cursor) : nat := length (before cur).

(** [^] with [MultilineOption]: the start of the subject, or just after a
    line feed that is not the last character of the subject. *)
Definition at_bol (bef aft : list ascii) : bool :=
  match bef with
  | [] => true
  | c :: _ => eqc c newline && negb (match aft with [] => true | _ => false end)
  end.

(** Strip the literal [s] from the front of [aft]. *)
Fixpoint eat (s aft : list ascii) : option (list ascii) :=
  match s with
  | [] => Some aft
  | x :: s' =>
      match aft with
      | y :: aft' => if eqc x y then eat s' aft' else None
      | [] => None
      end
  end.

Definition orelse (a : option cursor) (b : option cursor) : option cursor :=
  match a with
  | Some r => Some r
  | None => b
  end.

Fixpoint greedy (c : cclass) (k : cursor -> option cursor)
    (bef aft : list ascii) (cp : list (nat * QString)) : option cursor :=
  match aft with
  | x :: t =>
      if c x
      then orelse (greedy c k (x :: bef) t cp) (k (Cursor bef aft cp))
      else k (Cursor bef aft cp)
  | [] => k (Cursor bef aft cp)
  end.

Fixpoint lazy (c : cclass) (k : cursor -> option cursor)
    (bef aft : list ascii) (cp : list (nat * QString)) : option cursor :=
  orelse (k (Cursor bef aft cp))
    match aft with
    | x :: t => if c x then lazy c k (x :: bef) t cp else None
    | [] => None
    end.

(** The text between two positions of one subject. *)
Definition between_cursors (from to : cursor) : QString :=
  firstn (length (after from) - length (after to)) (after from).

Definition set_cap (n : nat) (s : QString) (cur : cursor) : cursor :=
  Cursor (before cur) (after cur) ((n, s) :: caps cur).

(** Match [r] at [cur], then the rest of the pattern [k]. *)
Fixpoint run (r : regex) (k : cursor -> option cursor) (cur : cursor)
    : option cursor :=
  match r with
  | Eps => k cur
  | Bol => if at_bol (before cur) (after cur) then k cur else None
  | Lit s =>
      match eat s (after cur) with
      | Some aft' => k (Cursor (rev_append s (before cur)) aft' (caps cur))
      | None => None
      end
  | Cls c =>
      match after cur with
      | x :: t => if c x then k (Cursor (x :: before cur) t (caps cur)) else None
      | [] => None
      end
  | Star c => greedy c k (before cur) (after cur) (caps cur)
  | LazyStar c => lazy c k (before cur) (after cur) (caps cur)
  | Opt r1 => orelse (run r1 k cur) (k cur)
  | Cap n r1 => run r1 (fun cur' => k (set_cap n (between_cursors cur cur') cur')) cur
  | Cat r1 r2 => run r1 (run r2 k) cur
  end.

(** The whole pattern at one position.  With [notempty] an empty match is
    refused there (PCRE2_NOTEMPTY_ATSTART). *)
Definition accept (notempty : bool) (start : nat) (cur : cursor) : option cursor :=
  if notempty && (position cur =? start) then None else Some cur.

Definition exec (re : regex) (notempty : bool) (bef aft : list ascii)
    : option cursor :=
  run re (accept notempty (length bef)) (Cursor bef aft []).

(** The leftmost match at or after a position. *)
Fixpoint search (re : regex) (bef aft : list ascii) : option (cursor * cursor) :=
  match exec re false bef aft with
  | Some e => Some (Cursor bef aft [], e)
  | None =>
      match aft with
      | c :: t => search re (c :: bef) t
      | [] => None
      end
  end.

(** [QRegularExpression::match(subject)] and what the code reads of its
    result. *)
Definition rx_match (re : regex) (subject : QString) : option (cursor * cursor) :=
  search re [] subject.

Definition hasMatch (m : option (cursor * cursor)) : bool :=
  match m with Some _ => true | None => false end.

Fixpoint lookup_cap (n : nat) (cp : list (nat * QString)) : QString :=
  match cp with
  | [] => []
  | (i, s) :: t => if i =? n then s else lookup_cap n t
  end.

Definition captured (n : nat) (m : option (cursor * cursor)) : QString :=
  match m with
  | Some (_, e) => lookup_cap n (caps e)
  | None => []
  end.

(** [QString::remove(re)]: every match is cut out.  The matches are those
    of the global match iterator: the search resumes where the previous
    match ended; after an empty match the same position is tried once more
    for a non-empty match before the search moves on by one character.
    [skip] counts the characters of the current match still to drop. *)
Fixpoint remove_from (re : regex) (skip : nat) (bef aft : list ascii) : QString :=
  match aft with
  | [] => []
  | c :: t =>
      match skip with
      | S n => remove_from re n (c :: bef) t
      | O =>
          let len (e : cursor) := length aft - length (after e) in
          let found :=
            match exec re false bef aft with
            | Some e =>
                if len e =? 0
                then match exec re true bef aft with
                     | Some e' => len e'
                     | None => 0
                     end
                else len e
            | None => 0
            end in
          match found with
          | O => c :: remove_from re 0 (c :: bef) t
          | S n => remove_from re n (c :: bef) t
          end
      end
  end.

Definition remove (re : regex) (s : QString) : QString := remove_from re 0 [] s.

(** What one successful path of [run] through a pattern looks like: the
    cursor before and the cursor after. *)
Inductive Matches : regex -> cursor -> cursor -> Prop :=
| M_Eps cur : Matches Eps cur cur
| M_Bol cur :
    at_bol (before cur) (after cur) = true -> Matches Bol cur cur
| M_Lit s cur aft' :
    eat s (after cur) = Some aft' ->
    Matches (Lit s) cur (Cursor (rev_append s (before cur)) aft' (caps cur))
| M_Cls c cur x t :
    after cur = x :: t -> c x = true ->
    Matches (Cls c) cur (Cursor (x :: before cur) t (caps cur))
| M_Star c cur w t :
    after cur = w ++ t -> forallb c w = true ->
    Matches (Star c) cur (Cursor (rev_append w (before cur)) t (caps cur))
| M_LazyStar c cur w t :
    after cur = w ++ t -> forallb c w = true ->
    Matches (LazyStar c) cur (Cursor (rev_append w (before cur)) t (caps cur))
| M_Opt_skip r cur : Matches (Opt r) cur cur
| M_Opt_take r cur cur' : Matches r cur cur' -> Matches (Opt r) cur cur'
| M_Cap n r cur cur' :
    Matches r cur cur' ->
    Matches (Cap n r) cur (set_cap n (between_cursors cur cur') cur')
| M_Cat r1 r2 cur mid cur' :
    Matches r1 cur mid -> Matches r2 mid cur' -> Matches (Cat r1 r2) cur cur'.

(** The next character, if there is one, is outside the class. *)
Definition stops (c : cclass) (l : list ascii) : bool :=
  match l with
  | [] => true
  | x :: _ => negb (c x)
  end.

(** Every character the pattern can consume satisfies [p]. *)
Fixpoint leaves_in (p : ascii -> bool) (r : regex) : Prop :=
  match r with
  | Eps | Bol => True
  | Lit s => forallb p s = true
  | Cls c | Star c | LazyStar c => forall x, c x = true -> p x = true
  | Opt r1 | Cap _ r1 => leaves_in p r1
  | Cat r1 r2 => leaves_in p r1 /\ leaves_in p r2
  end.

(** Every captured text is made of characters that satisfy [p]. *)
Definition caps_in (p : ascii -> bool) (cp : list (nat * QString)) : Prop :=
  Forall (fun e => forallb p (snd e) = true) cp.

End Rx.

(** ** The two patterns of [addShader] *)

(** [-?[\.\d]+] *)
Definition rx_number : Rx.regex :=
  Rx.Cat (Rx.Opt (Rx.Lit (txt "-"))) (Rx.Plus Rx.dot_or_digit).

(** ["^\\s*#pragma\\s+parameter\\s+(\\w+)\\s+\"(.+)\"\\s+(-?[\\.\\d]+)\\s+(-?[\\.\\d]+)\\s+(-?[\\.\\d]+)(\\s+-?[\\.\\d]+)?.*?\\n"] *)
Definition parameter : Rx.regex :=
  Rx.seq
    [ Rx.Bol; Rx.Star Rx.space;
      Rx.Lit (txt "#pragma"); Rx.Plus Rx.space;
      Rx.Lit (txt "parameter"); Rx.Plus Rx.space;
      Rx.Cap 1 (Rx.Plus Rx.word); Rx.Plus Rx.space;
      Rx.Lit [quote]; Rx.Cap 2 (Rx.Plus Rx.any); Rx.Lit [quote]; Rx.Plus Rx.space;
      Rx.Cap 3 rx_number; Rx.Plus Rx.space;
      Rx.Cap 4 rx_number; Rx.Plus Rx.space;
      Rx.Cap 5 rx_number;
      Rx.Opt (Rx.Cap 6 (Rx.Cat (Rx.Plus Rx.space) rx_number));
      Rx.LazyStar Rx.any; Rx.Lit [newline] ].

(** ["^\\s*(#version\\s+\\w+)"] *)
Definition version : Rx.regex :=
  Rx.seq
    [ Rx.Bol; Rx.Star Rx.space;
      Rx.Cap 1 (Rx.seq [Rx.Lit (txt "#version"); Rx.Plus Rx.space; Rx.Plus Rx.word]) ].

(** The two patterns behind their [^]. *)
Definition version_tail : Rx.regex :=
  match version with
  | Rx.Cat Rx.Bol r => r
  | r => r
  end.

Definition parameter_tail : Rx.regex :=
  match parameter with
  | Rx.Cat Rx.Bol r => r
  | r => r
  end.

(** ** [QString::arg] and [QStringList::join] *)

(** [QChar::digitValue] on the characters '0' .. '9'. *)
Definition digitValue (c : ascii) : option nat :=
  if Rx.digit c then Some (nat_of_ascii c - 48) else None.

(** A place marker at the front of [s]: '%', an optional 'L', one or two
    digits.  The result is its number and its length. *)
Definition escape_at (s : QString) : option (nat * nat) :=
  match s with
  | p :: t =>
      if eqc p "%" then
        let '(l, t') :=
          match t with
          | x :: u => if eqc x "L" then (1, u) else (0, t)
          | [] => (0, t)
          end in
        match t' with
        | d1 :: u =>
            match digitValue d1 with
            | Some v1 =>
                match u with
                | d2 :: _ =>
                    match digitValue d2 with
                    | Some v2 => Some (10 * v1 + v2, 3 + l)
                    | None => Some (v1, 2 + l)
                    end
                | [] => Some (v1, 2 + l)
                end
            | None => None
            end
        | [] => None
        end
      else None
  | [] => None
  end.

(** The lowest place marker of a string ([findArgEscapes]). *)
Fixpoint min_escape (s : QString) : option nat :=
  match s with
  | [] => None
  | _ :: t =>
      match escape_at s, min_escape t with
      | Some (n, _), Some m => Some (Nat.min n m)
      | Some (n, _), None => Some n
      | None, r => r
      end
  end.

(** Every marker with number [m] becomes [a] ([replaceArgEscapes]). *)
Fixpoint replace_escapes (m : nat) (a : QString) (skip : nat) (s : QString) : QString :=
  match s with
  | [] => []
  | c :: t =>
      match skip with
      | S n => replace_escapes m a n t
      | O =>
          match escape_at s with
          | Some (n, len) =>
              if n =? m
              then a ++ replace_escapes m a (len - 1) t
              else c :: replace_escapes m a 0 t
          | None => c :: replace_escapes m a 0 t
          end
      end
  end.

(** [s.arg(a)]: a string without a place marker is returned as it is. *)
Definition arg (s a : QString) : QString :=
  match min_escape s with
  | Some m => replace_escapes m a 0 s
  | None => s
  end.

Fixpoint join (sep : QString) (l : list QString) : QString :=
  match l with
  | [] => []
  | [x] => x
  | x :: t => x ++ sep ++ join sep t
  end.

(** ** JSON values, as [QJsonValue] and [QJsonDocument] expose them *)

#[local] Unset Elimination Schemes.
Inductive QJsonValue : Type :=
| JNull
| JBool (b : bool)
| JDouble (d : Q)
| JString (s : QString)
| JArray (l : list QJsonValue)
| JObject (o : list (QString * QJsonValue))
| JUndefined.
#[local] Set Elimination Schemes.

(** A [QJsonObject] lists its members by key; [fromJson] keeps one member
    per key, in the order of [keys()]. *)
Definition QJsonObject := list (QString * QJsonValue).

Inductive QJsonDocument : Type :=
| DocNull
| DocArray (l : list QJsonValue)
| DocObject (o : QJsonObject).

Definition isNull (d : QJsonDocument) : bool :=
  match d with DocNull => true | _ => false end.

(** [QJsonObject::value(key)], also behind [operator[]]. *)
Fixpoint value (o : QJsonObject) (key : QString) : QJsonValue :=
  match o with
  | [] => JUndefined
  | (k, v) :: t => if eqs k key then v else value t key
  end.

Definition keys (o : QJsonObject) : list QString := map fst o.

(** [QJsonDocument::operator[](key)]: undefined unless the document is an
    object. *)
Definition doc_value (d : QJsonDocument) (key : QString) : QJsonValue :=
  match d with
  | DocObject o => value o key
  | _ => JUndefined
  end.

Definition toArray (v : QJsonValue) : list QJsonValue :=
  match v with JArray l => l | _ => [] end.

Definition toObject (v : QJsonValue) : QJsonObject :=
  match v with JObject o => o | _ => [] end.

Definition toString (v : QJsonValue) : QString :=
  match v with JString s => s | _ => [] end.

Definition isEmpty (s : QString) : bool :=
  match s with [] => true | _ => false end.

(** ** What the two files take from outside *)

Inductive ShaderType : Type := Vertex | Fragment.

(** The shaders a [QOpenGLShaderProgram] holds and whether it is linked. *)
Record QOpenGLShaderProgram : Type := Program {
  shaders_of : list (ShaderType * QString);
  linked : bool
}.

Class Backend : Type := {
  GLfloat : Type;
  (** [QFile::open(ReadOnly | Text)] and [readAll]: the content, or
      nothing when the file cannot be opened *)
  file_content : QString -> option QByteArray;
  (** the constructors of a [QString] from a byte array and from a C string *)
  fromUtf8 : QByteArray -> QString;
  (** [QString::toLocal8Bit] *)
  toLocal8Bit : QString -> QByteArray;
  (** [QJsonDocument::fromJson] *)
  fromJson : QByteArray -> QJsonDocument;
  (** [QJsonValue::toVariant().toFloat()] *)
  toFloat : QJsonValue -> GLfloat;
  (** the GL compiler and linker *)
  compiles : ShaderType -> QString -> bool;
  links : list (ShaderType * QString) -> bool;
  (** [glGetUniformLocation] and [glGetAttribLocation] of a linked program *)
  uniform_of : list (ShaderType * QString) -> QString -> Z;
  attribute_of : list (ShaderType * QString) -> QString -> Z;
  (** [sizeof(video_shader)], from 86box.h *)
  sizeof_video_shader : nat
}.

(** The globals of 86box.h the class reads and writes.  [video_shader] is
    the text of the character array up to its terminator. *)
Record Config : Type := {
  video_vsync : Z;
  video_framerate : Z;
  video_filter_method : Z;
  video_shader : list ascii
}.

(** ** The class [OpenGLShaderPass] *)

Section Classes.

Context {B : Backend}.

Definition GLint := Z.

(** [QOpenGLShaderProgram::addShaderFromSourceCode] *)
Definition addShaderFromSourceCode (ty : ShaderType) (source : QString)
    (p : QOpenGLShaderProgram) : bool * QOpenGLShaderProgram :=
  if compiles ty source
  then (true, Program (shaders_of p ++ [(ty, source)]) (linked p))
  else (false, p).

(** [QOpenGLShaderProgram::link] *)
Definition link (p : QOpenGLShaderProgram) : bool * QOpenGLShaderProgram :=
  if links (shaders_of p)
  then (true, Program (shaders_of p) true)
  else (false, Program (shaders_of p) false).

(** [uniformLocation] and [attributeLocation]: -1 for a program that is not
    linked and for a name the program does not have. *)
Definition uniformLocation (p : QOpenGLShaderProgram) (name : QString) : GLint :=
  if linked p then uniform_of (shaders_of p) name else (-1)%Z.

Definition attributeLocation (p : QOpenGLShaderProgram) (name : QString) : GLint :=
  if linked p then attribute_of (shaders_of p) name else (-1)%Z.

Record OpenGLShaderPass : Type := {
  m_shader : QOpenGLShaderProgram;
  m_path : QString;
  m_vertex_coord : GLint;
  m_tex_coord : GLint;
  m_color : GLint;
  m_mvp_matrix : GLint;
  m_input_size : GLint;
  m_output_size : GLint;
  m_texture_size : GLint;
  m_frame_count : GLint;
  m_parameters : list (GLint * GLfloat)
}.

(** The loop of the constructor over [parameters]. *)
Fixpoint bind_parameters (shader : QOpenGLShaderProgram)
    (parameters : list (QString * GLfloat)) : list (GLint * GLfloat) :=
  match parameters with
  | [] => []
  | parameter :: rest =>
      let location := uniformLocation shader (fst parameter) in
      if (location =? -1)%Z
      then bind_parameters shader rest
      else (location, snd parameter) :: bind_parameters shader rest
  end.

Definition new_OpenGLShaderPass (shader : QOpenGLShaderProgram) (path : QString)
    (parameters : list (QString * GLfloat)) : OpenGLShaderPass :=
  {| m_shader := shader;
     m_path := path;
     m_vertex_coord := attributeLocation shader (txt "VertexCoord");
     m_tex_coord := attributeLocation shader (txt "TexCoord");
     m_color := attributeLocation shader (txt "Color");
     m_mvp_matrix := uniformLocation shader (txt "MVPMatrix");
     m_input_size := uniformLocation shader (txt "InputSize");
     m_output_size := uniformLocation shader (txt "OutputSize");
     m_texture_size := uniformLocation shader (txt "TextureSize");
     m_frame_count := uniformLocation shader (txt "FrameCount");
     m_parameters := bind_parameters shader parameters |}.

(** ** The class [OpenGLOptions] *)

Inductive RenderBehaviorType : Type := SyncWithVideo | TargetFramerate.
Inductive FilterType : Type := Nearest | Linear.

(** The data members of the class.  What the [QObject] base class keeps
    is not part of the record: the list of children, to which every
    [new QOpenGLShaderProgram(this)] adds the program it creates, is not
    modelled, so the record says nothing about the programs the object
    owns beyond those of the passes in [m_shaders]. *)
Record OpenGLOptions : Type := {
  m_renderBehavior : RenderBehaviorType;
  m_framerate : Z;
  m_vsync : bool;
  m_filter : FilterType;
  m_shaders : list OpenGLShaderPass;
  m_glslVersion : QString
}.

(** The object after its member initialisers. *)
Definition initial (glslVersion : QString) : OpenGLOptions :=
  {| m_renderBehavior := SyncWithVideo;
     m_framerate := (-1)%Z;
     m_vsync := false;
     m_filter := Nearest;
     m_shaders := [];
     m_glslVersion := glslVersion |}.

Definition renderBehavior (this : OpenGLOptions) : RenderBehaviorType := m_renderBehavior this.
Definition framerate (this : OpenGLOptions) : Z := m_framerate this.
Definition vSync (this : OpenGLOptions) : bool := m_vsync this.
Definition shaders (this : OpenGLOptions) : list OpenGLShaderPass := m_shaders this.

(** [filter()] reads the global, not [m_filter]. *)
Definition filter (this : OpenGLOptions) (cfg : Config) : FilterType :=
  if (video_filter_method cfg =? 0)%Z then Nearest else Linear.

Definition setRenderBehavior (v : RenderBehaviorType) (this : OpenGLOptions) : OpenGLOptions :=
  {| m_renderBehavior := v; m_framerate := m_framerate this; m_vsync := m_vsync this;
     m_filter := m_filter this; m_shaders := m_shaders this; m_glslVersion := m_glslVersion this |}.

Definition setFrameRate (v : Z) (this : OpenGLOptions) : OpenGLOptions :=
  {| m_renderBehavior := m_renderBehavior this; m_framerate := v; m_vsync := m_vsync this;
     m_filter := m_filter this; m_shaders := m_shaders this; m_glslVersion := m_glslVersion this |}.

Definition setVSync (v : bool) (this : OpenGLOptions) : OpenGLOptions :=
  {| m_renderBehavior := m_renderBehavior this; m_framerate := m_framerate this; m_vsync := v;
     m_filter := m_filter this; m_shaders := m_shaders this; m_glslVersion := m_glslVersion this |}.

Definition setFilter (v : FilterType) (this : OpenGLOptions) : OpenGLOptions :=
  {| m_renderBehavior := m_renderBehavior this; m_framerate := m_framerate this; m_vsync := m_vsync this;
     m_filter := v; m_shaders := m_shaders this; m_glslVersion := m_glslVersion this |}.

(** [m_shaders << pass] *)
Definition push_shader (pass : OpenGLShaderPass) (this : OpenGLOptions) : OpenGLOptions :=
  {| m_renderBehavior := m_renderBehavior this; m_framerate := m_framerate this; m_vsync := m_vsync this;
     m_filter := m_filter this; m_shaders := m_shaders this ++ [pass]; m_glslVersion := m_glslVersion this |}.

(** *** Member functions that can throw

    A member function takes the object and gives back the object as the
    call left it, together with its result or the [std::runtime_error] it
    threw: what was appended to [m_shaders] before a throw stays appended. *)

Inductive runtime_error : Type :=
| OpenError (path : QString)         (* readTextFile *)
| EmptyPath                          (* empty message: a preset entry without a path *)
| VertexError (path : QString)
| FragmentError (path : QString)
| LinkError (path : QString).

Definition M (A : Type) : Type := OpenGLOptions -> (runtime_error + A) * OpenGLOptions.

Definition ret {A} (a : A) : M A := fun this => (inr a, this).

Definition throw {A} (e : runtime_error) : M A := fun this => (inl e, this).

Definition bind {A C} (m : M A) (f : A -> M C) : M C :=
  fun this =>
    match m this with
    | (inr a, this') => f a this'
    | (inl e, this') => (inl e, this')
    end.

(** [try { m } catch (const std::runtime_error &) { h }] *)
Definition try_catch {A} (m : M A) (h : M A) : M A :=
  fun this =>
    match m this with
    | (inr a, this') => (inr a, this')
    | (inl _, this') => h this'
    end.

Definition modify (f : OpenGLOptions -> OpenGLOptions) : M unit :=
  fun this => (inr tt, f this).

Definition get {A} (f : OpenGLOptions -> A) : M A :=
  fun this => (inr (f this), this).

(** A range-based [for] whose body can throw. *)
Fixpoint for_each {A} (l : list A) (body : A -> M unit) : M unit :=
  match l with
  | [] => ret tt
  | x :: rest => bind (body x) (fun _ => for_each rest body)
  end.

End Classes.

Notation "x <- m ;; k" := (bind m (fun x => k))
  (at level 61, m at next level, right associativity).
Notation "m ;;; k" := (bind m (fun _ => k))
  (at level 61, right associativity).

(** The default shaders. *)
Definition vertex_shader : QString :=
  join [newline]
    [ txt "in vec2 VertexCoord;";
      txt "in vec2 TexCoord;";
      txt "out vec2 tex;";
      txt "void main(){";
      txt "    gl_Position = vec4(VertexCoord, 0.0, 1.0);";
      txt "    tex = TexCoord;";
      txt "}";
      [] ].

Definition fragment_shader : QString :=
  join [newline]
    [ txt "in vec2 tex;";
      txt "uniform sampler2D texsampler;";
      txt "out vec4 color;";
      txt "void main() {";
      txt "    color = texture(texsampler, tex);";
      txt "}";
      [] ].

Section Methods.

Context {B : Backend}.

(** [readTextFile] *)
Definition readTextFile (path : QString) : M QByteArray :=
  match file_content path with
  | Some bytes => ret bytes
  | None => throw (OpenError path)
  end.

(** The parameter lines are removed from the source. *)
Definition strip_parameters (source : QString) : QString :=
  Rx.remove parameter source.

(** The version line of a pass and the source without it: the directive of
    the source when it has one, [m_glslVersion] otherwise. *)
Definition strip_version (glslVersion source : QString) : QString * QString :=
  let m := Rx.rx_match version source in
  if Rx.hasMatch m
  then (Rx.captured 1 m, Rx.remove version source)
  else (glslVersion, source).

Definition header (version_line : QString) : list QString :=
  [ version_line;
    txt "#extension GL_ARB_shading_language_420pack : enable";
    txt "#define PARAMETER_UNIFORM";
    txt "#define %1";
    txt "#line 1";
    txt "" ].

Definition prefix (version_line : QString) : QString :=
  join [newline] (header version_line).

(** The first half of [addShader(source, path, parameters)]: the two
    removals, and [prefix] with its place marker still in it. *)
Definition assemble (glslVersion source : QString) : QString * QString :=
  let source := strip_parameters source in
  let '(version_line, source) := strip_version glslVersion source in
  (prefix version_line, source).

(** [addShader(source, path, parameters)]

    The program is created as a child of the object and is not deleted
    before a throw; as the children are outside [OpenGLOptions], a program
    that is given up with an exception leaves no trace in the state: after
    a throw the state tells what the data members hold, not what the
    object owns. *)
Definition addShader3 (source path : QString) (parameters : list (QString * GLfloat))
    : M unit :=
  glslVersion <- get m_glslVersion ;;
  let '(prefix, source) := assemble glslVersion source in
  let shader := Program [] false in
  let '(ok, shader) :=
    addShaderFromSourceCode Vertex (arg prefix (txt "VERTEX") ++ source) shader in
  if negb ok then throw (VertexError path) else
  let '(ok, shader) :=
    addShaderFromSourceCode Fragment (arg prefix (txt "FRAGMENT") ++ source) shader in
  if negb ok then throw (FragmentError path) else
  let '(ok, shader) := link shader in
  if negb ok then throw (LinkError path) else
  modify (push_shader (new_OpenGLShaderPass shader path parameters)).

(** The body of the loop of [addShader(path)] over the entries of a preset. *)
Definition addShader_item (item : QJsonValue) : M unit :=
  let shader := toObject item in
  let sPath := toString (value shader (txt "path")) in
  if isEmpty sPath then throw EmptyPath else
  let params := toObject (value shader (txt "parameters")) in
  let parameters := map (fun key => (key, toFloat (value params key))) (keys params) in
  bytes <- readTextFile sPath ;;
  addShader3 (fromUtf8 bytes) sPath parameters.

(** [addShader(path)] *)
Definition addShader (path : QString) : M unit :=
  bytes <- readTextFile path ;;
  let json := fromJson bytes in
  if negb (isNull json)
  then for_each (toArray (doc_value json (txt "shaders"))) addShader_item
  else addShader3 (fromUtf8 bytes) path [].

(** [addDefaultShader]: the results of compiling and linking are not looked at. *)
Definition default_program (glslVersion : QString) : QOpenGLShaderProgram :=
  let shader := Program [] false in
  let shader := snd (addShaderFromSourceCode Vertex (glslVersion ++ [newline] ++ vertex_shader) shader) in
  let shader := snd (addShaderFromSourceCode Fragment (glslVersion ++ [newline] ++ fragment_shader) shader) in
  snd (link shader).

Definition default_pass (glslVersion : QString) : OpenGLShaderPass :=
  new_OpenGLShaderPass (default_program glslVersion) [] [].

Definition addDefaultShader : M unit :=
  glslVersion <- get m_glslVersion ;;
  modify (push_shader (default_pass glslVersion)).

(** The constructor [OpenGLOptions(parent, loadConfig, glslVersion)]. *)
Definition new_OpenGLOptions (loadConfig : bool) (glslVersion : QString) (cfg : Config)
    : (runtime_error + unit) * OpenGLOptions :=
  (modify (setFilter (if (video_filter_method cfg =? 0)%Z then Nearest else Linear)) ;;;
   if negb loadConfig then ret tt else
   modify (setVSync (negb (video_vsync cfg =? 0)%Z)) ;;;
   modify (setFrameRate (video_framerate cfg)) ;;;
   modify (setRenderBehavior
             (if (video_framerate cfg =? -1)%Z then SyncWithVideo else TargetFramerate)) ;;;
   let shaderPath := fromUtf8 (video_shader cfg) in
   if isEmpty shaderPath
   then addDefaultShader
   else try_catch (addShader shaderPath) addDefaultShader)
  (initial glslVersion).

(** The text a character array holds: up to the first zero byte. *)
Fixpoint c_string (l : list ascii) : list ascii :=
  match l with
  | [] => []
  | c :: t => if eqc c zero then [] else c :: c_string t
  end.

(** [qstrncpy(dst, src, len)] leaves in [dst] at most [len - 1] characters
    of [src], and [dst] as it was when [len] is 0. *)
Definition qstrncpy (dst src : list ascii) (len : nat) : list ascii :=
  match len with
  | O => dst
  | S n => firstn n (c_string src)
  end.

Inductive save_result : Type :=
| Saved (cfg : Config)
| FirstOfEmptyList (cfg : Config).   (* [first()] of an empty [QList]: undefined *)

(** [save]: the three numbers are written before the first pass is read. *)
Definition save (this : OpenGLOptions) (cfg : Config) : save_result :=
  let cfg :=
    {| video_vsync := if m_vsync this then 1%Z else 0%Z;
       video_framerate :=
         match m_renderBehavior this with
         | SyncWithVideo => (-1)%Z
         | TargetFramerate => m_framerate this
         end;
       video_filter_method :=
         match m_filter this with Nearest => 0%Z | Linear => 1%Z end;
       video_shader := video_shader cfg |} in
  match m_shaders this with
  | [] => FirstOfEmptyList cfg
  | first :: _ =>
      let path := toLocal8Bit (m_path first) in
      Saved
        {| video_vsync := video_vsync cfg;
           video_framerate := video_framerate cfg;
           video_filter_method := video_filter_method cfg;
           video_shader :=
             if negb (isEmpty path)
             then qstrncpy (video_shader cfg) path sizeof_video_shader
             else [] |}
  end.

End Methods.

(** ** A concrete backend

    A small file system, a compiler that refuses the sources holding
    [#error], and one uniform, [x], at location 3.  [fromJson] knows the
    JSON texts of this file system. *)
Module Fixture.

Definition q (s : string) : QString := [quote] ++ txt s ++ [quote].

Definition one_pass_json : QByteArray :=
  txt "{" ++ q "shaders" ++ txt ":[{" ++ q "path" ++ txt ":" ++ q "a.glsl" ++ txt ","
    ++ q "parameters" ++ txt ":{" ++ q "x" ++ txt ":0.5," ++ q "y" ++ txt ":2}}]}".

Definition two_pass_json : QByteArray :=
  txt "{" ++ q "shaders" ++ txt ":[{" ++ q "path" ++ txt ":" ++ q "a.glsl" ++ txt "},{"
    ++ q "path" ++ txt ":" ++ q "missing.glsl" ++ txt "}]}".

Definition files : list (QString * QByteArray) :=
  [ (txt "a.glsl", txt "void main(){}");
    (txt "bad.glsl", txt "#error");
    (txt "one.json", one_pass_json);
    (txt "two.json", two_pass_json);
    (txt "array.json", txt "[]");
    (txt "object.json", txt "{}") ].

Fixpoint assoc {A} (l : list (QString * A)) (key : QString) : option A :=
  match l with
  | [] => None
  | (k, v) :: t => if eqs k key then Some v else assoc t key
  end.

Definition documents : list (QByteArray * QJsonDocument) :=
  [ (one_pass_json,
     DocObject
       [ (txt "shaders",
          JArray
            [ JObject
                [ (txt "parameters", JObject [ (txt "x", JDouble (1 # 2)); (txt "y", JDouble 2) ]);
                  (txt "path", JString (txt "a.glsl")) ] ]) ]);
    (two_pass_json,
     DocObject
       [ (txt "shaders",
          JArray
            [ JObject [ (txt "path", JString (txt "a.glsl")) ];
              JObject [ (txt "path", JString (txt "missing.glsl")) ] ]) ]);
    (txt "[]", DocArray []);
    (txt "{}", DocObject []) ].

Fixpoint contains (needle hay : QString) : bool :=
  match Rx.eat needle hay with
  | Some _ => true
  | None =>
      match hay with
      | [] => false
      | _ :: t => contains needle t
      end
  end.

#[export] Instance backend : Backend := {|
  GLfloat := Q;
  file_content := assoc files;
  fromUtf8 := fun bytes => bytes;
  toLocal8Bit := fun s => s;
  fromJson := fun bytes =>
    match assoc documents bytes with Some d => d | None => DocNull end;
  toFloat := fun v =>
    match v with JDouble d => d | JBool true => 1%Q | _ => 0%Q end;
  compiles := fun _ source => negb (contains (txt "#error") source);
  links := fun _ => true;
  uniform_of := fun _ name => if eqs name (txt "x") then 3%Z else (-1)%Z;
  attribute_of := fun _ _ => (-1)%Z;
  sizeof_video_shader := 512
|}.

Definition config (shader : string) : Config :=
  {| video_vsync := 0; video_framerate := (-1)%Z; video_filter_method := 0;
     video_shader := txt shader |}.

Definition glsl : QString := txt "#version 130".

End Fixture.

(** ** Vocabulary of the statements *)

Section Vocabulary.

Context {B : Backend}.

(** A session is a list of setter calls. *)
Inductive call : Type :=
| CallSetRenderBehavior (v : RenderBehaviorType)
| CallSetFrameRate (v : Z)
| CallSetVSync (v : bool)
| CallSetFilter (v : FilterType).

(** The object and the globals, before and after one call. *)
Definition do_call (c : call) (w : OpenGLOptions * Config) : OpenGLOptions * Config :=
  match c with
  | CallSetRenderBehavior v => (setRenderBehavior v (fst w), snd w)
  | CallSetFrameRate v => (setFrameRate v (fst w), snd w)
  | CallSetVSync v => (setVSync v (fst w), snd w)
  | CallSetFilter v => (setFilter v (fst w), snd w)
  end.

Definition do_calls (cs : list call) (w : OpenGLOptions * Config) : OpenGLOptions * Config :=
  fold_left (fun w c => do_call c w) cs w.

(** The globals as [save] leaves them. *)
Definition config_after (r : save_result) : Config :=
  match r with
  | Saved cfg => cfg
  | FirstOfEmptyList cfg => cfg
  end.

(** The object the constructor leaves before it looks at the shader path. *)
Definition configured (glslVersion : QString) (cfg : Config) : OpenGLOptions :=
  setRenderBehavior (if (video_framerate cfg =? -1)%Z then SyncWithVideo else TargetFramerate)
    (setFrameRate (video_framerate cfg)
       (setVSync (negb (video_vsync cfg =? 0)%Z)
          (setFilter (if (video_filter_method cfg =? 0)%Z then Nearest else Linear)
             (initial glslVersion)))).

(** The persisted path names a readable JSON document without entries
    under "shaders". *)
Definition names_empty_preset (cfg : Config) : bool :=
  let shaderPath := fromUtf8 (video_shader cfg) in
  negb (isEmpty shaderPath) &&
  match file_content shaderPath with
  | Some bytes =>
      negb (isNull (fromJson bytes)) &&
      match toArray (doc_value (fromJson bytes) (txt "shaders")) with
      | [] => true
      | _ => false
      end
  | None => false
  end.

(** Two objects that differ at most in their passes. *)
Definition same_settings (a b : OpenGLOptions) : Prop :=
  m_renderBehavior a = m_renderBehavior b /\
  m_framerate a = m_framerate b /\
  m_vsync a = m_vsync b /\
  m_filter a = m_filter b /\
  m_glslVersion a = m_glslVersion b.

(** The program of a pass that compiled and linked. *)
Definition built_program (glslVersion source : QString) : QOpenGLShaderProgram :=
  let '(prefix, body) := assemble glslVersion source in
  Program
    [ (Vertex, arg prefix (txt "VERTEX") ++ body);
      (Fragment, arg prefix (txt "FRAGMENT") ++ body) ]
    true.

End Vocabulary.

(** ** Sources written line by line

    The shapes of source text for which the two removals are described
    line by line. *)

Definition nonempty (l : QString) : bool := negb (isEmpty l).

Definition starts_with (p : Rx.cclass) (l : QString) : bool :=
  match l with
  | x :: _ => p x
  | [] => false
  end.

Definition has_prefix (s l : QString) : bool :=
  match Rx.eat s l with
  | Some _ => true
  | None => false
  end.

(** No line feed. *)
Definition one_line (l : QString) : bool := forallb Rx.any l.

(** A text behind its leading white space, and that white space. *)
Fixpoint drop_space (l : QString) : QString :=
  match l with
  | x :: t => if Rx.space x then drop_space t else l
  | [] => []
  end.

Fixpoint take_space (l : QString) : QString :=
  match l with
  | x :: t => if Rx.space x then x :: take_space t else []
  | [] => []
  end.

(** The text on the left of a position ends a line, or is empty. *)
Definition line_start (bef : list ascii) : bool :=
  match bef with
  | [] => true
  | c :: _ => eqc c newline
  end.

Module VersionSource.

(** A line that starts with a version directive, after blank lines and
    indentation [lead]: [#version], white space [gap], a word [w], and the
    rest of the line.  Or a line of other text [l] after its [lead]. *)
Inductive line : Type :=
| Directive (lead gap w rest : QString)
| Other (lead l : QString).

Definition ok (x : line) : bool :=
  match x with
  | Directive lead gap w rest =>
      forallb Rx.space lead &&
      nonempty gap && forallb Rx.space gap &&
      nonempty w && forallb Rx.word w &&
      one_line rest && negb (starts_with Rx.word rest)
  | Other lead l =>
      forallb Rx.space lead &&
      nonempty l && negb (starts_with Rx.space l) && one_line l &&
      negb (has_prefix (txt "#version") l)
  end.

Definition text (x : line) : QString :=
  match x with
  | Directive lead gap w rest => lead ++ txt "#version" ++ gap ++ w ++ rest ++ [newline]
  | Other lead l => lead ++ l ++ [newline]
  end.

(** What the removal leaves of a line. *)
Definition kept (x : line) : QString :=
  match x with
  | Directive lead gap w rest => rest ++ [newline]
  | Other lead l => lead ++ l ++ [newline]
  end.

Fixpoint first_directive (default : QString) (lines : list line) : QString :=
  match lines with
  | [] => default
  | Directive lead gap w rest :: _ => txt "#version" ++ gap ++ w
  | Other _ _ :: t => first_directive default t
  end.

Fixpoint has_directive (lines : list line) : bool :=
  match lines with
  | [] => false
  | Directive _ _ _ _ :: _ => true
  | Other _ _ :: t => has_directive t
  end.

(** What may stand behind the last line feed: white space, and a last line
    of other text. *)
Definition last_ok (trailer : QString) : bool :=
  one_line (drop_space trailer) &&
  negb (has_prefix (txt "#version") (drop_space trailer)).

(** A source of such lines. *)
Definition source (lines : list line) (trailer : QString) : QString :=
  concat (map text lines) ++ trailer.

Definition stripped (lines : list line) (trailer : QString) : QString :=
  concat (map kept lines) ++ trailer.

End VersionSource.

Module PragmaSource.

(** A number as the pattern reads it: a sign and characters of [[\.\d]]. *)
Record number : Type := Number {
  negative : bool;
  digits : QString
}.

Definition number_text (n : number) : QString :=
  (if negative n then txt "-" else []) ++ digits n.

Definition number_ok (n : number) : bool :=
  nonempty (digits n) && forallb Rx.dot_or_digit (digits n).

(** Neither a line feed nor a double quote. *)
Definition in_description (c : ascii) : bool :=
  Rx.any c && negb (eqc c quote).

(** A parameter line
    [#pragma parameter IDENTIFIER "DESCRIPTION" INITIAL MINIMUM MAXIMUM [STEP]]
    or a line of other text [l] after blank lines and indentation [lead]. *)
Inductive line : Type :=
| Pragma (identifier description : QString) (initial minimum maximum : number)
    (step : option number)
| Other (lead l : QString).

Definition numeric (c : ascii) : bool := eqc c "-" || Rx.dot_or_digit c.

Definition ok (x : line) : bool :=
  match x with
  | Pragma identifier description initial minimum maximum step =>
      nonempty identifier && forallb Rx.word identifier &&
      nonempty description && forallb in_description description &&
      number_ok initial && number_ok minimum && number_ok maximum &&
      match step with Some s => number_ok s | None => true end
  | Other lead l =>
      forallb Rx.space lead &&
      nonempty l && negb (starts_with Rx.space l) && one_line l &&
      negb (has_prefix (txt "#pragma") l) &&
      negb (starts_with numeric l)
  end.

Definition step_text (step : option number) : QString :=
  match step with
  | Some s => txt " " ++ number_text s
  | None => []
  end.

Definition text (x : line) : QString :=
  match x with
  | Pragma identifier description initial minimum maximum step =>
      txt "#pragma parameter " ++ identifier ++ txt " "
        ++ [quote] ++ description ++ [quote] ++ txt " "
        ++ number_text initial ++ txt " "
        ++ number_text minimum ++ txt " "
        ++ number_text maximum ++ step_text step ++ [newline]
  | Other lead l => lead ++ l ++ [newline]
  end.

(** What the removal leaves of a line. *)
Definition kept (x : line) : QString :=
  match x with
  | Pragma _ _ _ _ _ _ => []
  | Other lead l => lead ++ l ++ [newline]
  end.

(** What may stand behind the last line feed: white space, and a last line
    of other text. *)
Definition last_ok (trailer : QString) : bool :=
  one_line (drop_space trailer) &&
  negb (has_prefix (txt "#pragma") (drop_space trailer)) &&
  negb (starts_with numeric (drop_space trailer)).

(** A source of such lines. *)
Definition source (lines : list line) (trailer : QString) : QString :=
  concat (map text lines) ++ trailer.

Definition stripped (lines : list line) (trailer : QString) : QString :=
  concat (map kept lines) ++ trailer.

End PragmaSource.

(** ** The specification as worded, where the code differs *)

(** Only the first match is cut out. *)
Definition spec_remove_first (re : Rx.regex) (s : QString) : QString :=
  match Rx.rx_match re s with
  | Some (b, e) => firstn (Rx.position b) s ++ Rx.after e
  | None => s
  end.

(** The header with the stage macro ahead of the parameter macro. *)
Definition spec_header (version_line stage : QString) : list QString :=
  [ version_line;
    txt "#extension GL_ARB_shading_language_420pack : enable";
    txt "#define " ++ stage;
    txt "#define PARAMETER_UNIFORM";
    txt "#line 1";
    txt "" ].

(** The header as [addShader] writes it, for one stage. *)
Definition stage_header (version_line stage : QString) : list QString :=
  [ version_line;
    txt "#extension GL_ARB_shading_language_420pack : enable";
    txt "#define PARAMETER_UNIFORM";
    txt "#define " ++ stage;
    txt "#line 1";
    txt "" ].

Definition no_percent (s : QString) : bool :=
  forallb (fun c => negb (eqc c "%")) s.

(** ** Vocabulary of the further statements *)

Section Entries.

Context {B : Backend}.

(** What the loop of [addShader(path)] reads of one entry of a preset. *)
Definition entry_path (item : QJsonValue) : QString :=
  toString (value (toObject item) (txt "path")).

Definition entry_parameters (item : QJsonValue) : list (QString * GLfloat) :=
  let params := toObject (value (toObject item) (txt "parameters")) in
  map (fun key => (key, toFloat (value params key))) (keys params).

(** The text [addShader(source, path, parameters)] hands to the compiler
    for a stage. *)
Definition stage_source (stage : string) (glslVersion source : QString) : QString :=
  let '(prefix, body) := assemble glslVersion source in
  arg prefix (txt stage) ++ body.

(** A pass is the one built for an entry of a preset. *)
Definition entry_built (item : QJsonValue) (pass : OpenGLShaderPass) : Prop :=
  m_path pass = entry_path item /\
  linked (m_shader pass) = true /\
  m_parameters pass = bind_parameters (m_shader pass) (entry_parameters item).

(** The backend takes both stage texts of a source and links them. *)
Definition source_builds (glslVersion source : QString) : bool :=
  let v := stage_source "VERTEX" glslVersion source in
  let f := stage_source "FRAGMENT" glslVersion source in
  compiles Vertex v && compiles Fragment f && links [ (Vertex, v); (Fragment, f) ].

(** The error [e] is the one [addShader(source, path, parameters)] throws
    for a source the backend refuses: that of the first check that fails,
    with the path it was called with. *)
Definition stage_error (glslVersion source path : QString) (e : runtime_error) : Prop :=
  let v := stage_source "VERTEX" glslVersion source in
  let f := stage_source "FRAGMENT" glslVersion source in
  match e with
  | VertexError p => p = path /\ compiles Vertex v = false
  | FragmentError p =>
      p = path /\ compiles Vertex v = true /\ compiles Fragment f = false
  | LinkError p =>
      p = path /\ compiles Vertex v = true /\ compiles Fragment f = true /\
      links [ (Vertex, v); (Fragment, f) ] = false
  | OpenError _ | EmptyPath => False
  end.

(** The error [e] is the one the shader file [path] gives: the open error
    of [path] when the file cannot be opened, and the error of the first
    failing check on its content otherwise. *)
Definition file_error (glslVersion path : QString) (e : runtime_error) : Prop :=
  match e with
  | OpenError p => p = path /\ file_content path = None
  | EmptyPath => False
  | _ =>
      exists bytes, file_content path = Some bytes /\
        stage_error glslVersion (fromUtf8 bytes) path e
  end.

(** The error [e] is the one the entry [item] of a preset gives: the error
    with the empty message when the entry has no path, the error of the
    file it names otherwise. *)
Definition entry_error (glslVersion : QString) (item : QJsonValue) (e : runtime_error)
    : Prop :=
  match e with
  | EmptyPath => isEmpty (entry_path item) = true
  | _ => isEmpty (entry_path item) = false /\ file_error glslVersion (entry_path item) e
  end.

(** An entry of a preset loads: it has a path, the file can be read, and
    the backend takes its content. *)
Definition entry_loads (glslVersion : QString) (item : QJsonValue) : bool :=
  negb (isEmpty (entry_path item)) &&
  match file_content (entry_path item) with
  | Some bytes => source_builds glslVersion (fromUtf8 bytes)
  | None => false
  end.

(** Two setter calls set the same member. *)
Definition same_member (a b : call) : bool :=
  match a, b with
  | CallSetRenderBehavior _, CallSetRenderBehavior _ => true
  | CallSetFrameRate _, CallSetFrameRate _ => true
  | CallSetVSync _, CallSetVSync _ => true
  | CallSetFilter _, CallSetFilter _ => true
  | _, _ => false
  end.

(** No zero byte. *)
Definition no_zero (l : list ascii) : bool := forallb (fun c => negb (eqc c zero)) l.

(** Every parameter of a pass is bound to a location of its program. *)
Definition bindings_valid (pass : OpenGLShaderPass) : Prop :=
  Forall (fun b => fst b <> (-1)%Z) (m_parameters pass).

End Entries.

(** The concrete backend with a linker that refuses every program. *)
Definition no_linker : Backend :=
  {| GLfloat := Q;
     file_content := @file_content Fixture.backend;
     fromUtf8 := @fromUtf8 Fixture.backend;
     toLocal8Bit := @toLocal8Bit Fixture.backend;
     fromJson := @fromJson Fixture.backend;
     toFloat := @toFloat Fixture.backend;
     compiles := @compiles Fixture.backend;
     links := fun _ => false;
     uniform_of := @uniform_of Fixture.backend;
     attribute_of := @attribute_of Fixture.backend;
     sizeof_video_shader := @sizeof_video_shader Fixture.backend |}.

(** A fact about one character, by its 256 cases. *)
Ltac by_cases_on_char x :=
  destruct x as [[] [] [] [] [] [] [] []]; vm_compute; intros; congruence.

(** The cursor behind a capture group. *)
Ltac close_group :=
  cbv beta; unfold Rx.set_cap; cbn [Rx.before Rx.after Rx.caps].

(** * Properties *)

Unset Implicit Arguments.

Section Properties.

Context {B : Backend}.

(** ** How the member functions change the object *)

Lemma same_settings_refl this : same_settings this this.
Proof. repeat split. Qed.

Lemma same_settings_trans a b c :
  same_settings a b -> same_settings b c -> same_settings a c.
Proof.
  unfold same_settings. intros (H1 & H2 & H3 & H4 & H5) (K1 & K2 & K3 & K4 & K5).
  repeat split; congruence.
Qed.

Lemma same_settings_push pass this : same_settings this (push_shader pass this).
Proof. repeat split. Qed.

(** [addShader(source, path, parameters)] either appends the pass of the
    program it built, or throws and leaves the object as it was. *)
Lemma addShader3_cases source path ps this :
  addShader3 source path ps this =
    (inr tt,
     push_shader
       (new_OpenGLShaderPass (built_program (m_glslVersion this) source) path ps) this)
  \/ exists e, addShader3 source path ps this = (inl e, this).
Proof.
  unfold addShader3, built_program, bind, get, modify, throw.
  destruct (assemble (m_glslVersion this) source) as [pre body].
  unfold addShaderFromSourceCode; cbn [shaders_of linked app].
  destruct (compiles Vertex _); cbn [negb]; [| right; eexists; reflexivity].
  destruct (compiles Fragment _); cbn [negb]; [| right; eexists; reflexivity].
  unfold link; cbn [shaders_of].
  destruct (links _); cbn [negb]; [| right; eexists; reflexivity].
  left. reflexivity.
Qed.

Lemma addShader3_success source path ps this this' :
  addShader3 source path ps this = (inr tt, this') ->
  this' =
    push_shader
      (new_OpenGLShaderPass (built_program (m_glslVersion this) source) path ps) this.
Proof.
  intros H.
  destruct (addShader3_cases source path ps this) as [E | [e E]];
    rewrite E in H; [| discriminate].
  inversion H. reflexivity.
Qed.

Lemma built_program_linked glslVersion source :
  linked (built_program glslVersion source) = true.
Proof. unfold built_program. destruct (assemble _ _). reflexivity. Qed.

Lemma addShader3_grows source path ps this r this' :
  addShader3 source path ps this = (r, this') ->
  same_settings this this' /\
  exists extra, m_shaders this' = m_shaders this ++ extra /\
    (r = inr tt -> length extra = 1).
Proof.
  intros H. destruct (addShader3_cases source path ps this) as [E | [e E]];
    rewrite E in H; inversion H; subst.
  - split; [apply same_settings_push |].
    eexists; split; [reflexivity | reflexivity].
  - split; [apply same_settings_refl |].
    exists []. rewrite app_nil_r. split; [reflexivity | discriminate].
Qed.

Lemma readTextFile_keeps path this :
  snd (readTextFile path this) = this.
Proof. unfold readTextFile. destruct (file_content path); reflexivity. Qed.

Lemma addShader_item_grows item this r this' :
  addShader_item item this = (r, this') ->
  same_settings this this' /\
  exists extra, m_shaders this' = m_shaders this ++ extra /\
    (r = inr tt -> length extra = 1).
Proof.
  unfold addShader_item.
  destruct (isEmpty _).
  - intros H; inversion H; subst. split; [apply same_settings_refl |].
    exists []. rewrite app_nil_r. split; [reflexivity | discriminate].
  - unfold bind, readTextFile.
    destruct (file_content _) as [bytes |]; cbn.
    + apply addShader3_grows.
    + intros H; inversion H; subst. split; [apply same_settings_refl |].
      exists []. rewrite app_nil_r. split; [reflexivity | discriminate].
Qed.

Lemma for_each_items_grows items this r this' :
  for_each items addShader_item this = (r, this') ->
  same_settings this this' /\
  exists extra, m_shaders this' = m_shaders this ++ extra /\
    (r = inr tt -> length extra = length items).
Proof.
  revert this. induction items as [| item items IH]; intros this; cbn.
  - intros H; inversion H; subst. split; [apply same_settings_refl |].
    exists []. rewrite app_nil_r. split; reflexivity.
  - unfold bind. destruct (addShader_item item this) as [[e | []] mid] eqn:E;
      apply addShader_item_grows in E; destruct E as (S1 & ex1 & G1 & L1).
    + intros H; inversion H; subst. split; [exact S1 |].
      exists ex1. split; [exact G1 | discriminate].
    + intros H. apply IH in H. destruct H as (S2 & ex2 & G2 & L2).
      split; [eapply same_settings_trans; eassumption |].
      exists (ex1 ++ ex2). split.
      * rewrite G2, G1, app_assoc. reflexivity.
      * intros Hr. rewrite length_app, L1, L2 by (reflexivity || assumption). reflexivity.
Qed.

Lemma addShader_grows path this r this' :
  addShader path this = (r, this') ->
  same_settings this this' /\
  exists extra, m_shaders this' = m_shaders this ++ extra.
Proof.
  unfold addShader, bind, readTextFile.
  destruct (file_content path) as [bytes |]; cbn.
  - destruct (isNull (fromJson bytes)); cbn [negb]; intros H.
    + apply addShader3_grows in H. destruct H as (S1 & ex & G & _). eauto.
    + apply for_each_items_grows in H. destruct H as (S1 & ex & G & _). eauto.
  - intros H; inversion H; subst. split; [apply same_settings_refl |].
    exists []. rewrite app_nil_r. reflexivity.
Qed.

Lemma addDefaultShader_run this :
  addDefaultShader this = (inr tt, push_shader (default_pass (m_glslVersion this)) this).
Proof. reflexivity. Qed.

(** The constructor, once the settings are read. *)
Lemma new_OpenGLOptions_load glsl cfg :
  new_OpenGLOptions true glsl cfg =
    (if isEmpty (fromUtf8 (video_shader cfg))
     then addDefaultShader
     else try_catch (addShader (fromUtf8 (video_shader cfg))) addDefaultShader)
      (configured glsl cfg).
Proof. reflexivity. Qed.

Lemma new_OpenGLOptions_noload glsl cfg :
  new_OpenGLOptions false glsl cfg =
    (inr tt,
     setFilter (if (video_filter_method cfg =? 0)%Z then Nearest else Linear) (initial glsl)).
Proof. reflexivity. Qed.

(** No exception leaves the constructor. *)
Lemma new_OpenGLOptions_returns loadConfig glsl cfg :
  fst (new_OpenGLOptions loadConfig glsl cfg) = inr tt.
Proof.
  destruct loadConfig; [| reflexivity].
  rewrite new_OpenGLOptions_load.
  destruct (isEmpty _); [reflexivity |].
  unfold try_catch.
  destruct (addShader _ _) as [[e | []] this']; reflexivity.
Qed.

(** The settings the constructor reads are those of the object it returns. *)
Lemma new_OpenGLOptions_settings glsl cfg :
  same_settings (configured glsl cfg) (snd (new_OpenGLOptions true glsl cfg)).
Proof.
  rewrite new_OpenGLOptions_load.
  destruct (isEmpty _).
  - rewrite addDefaultShader_run. apply same_settings_push.
  - unfold try_catch.
    destruct (addShader _ _) as [[e | []] this'] eqn:E;
      apply addShader_grows in E; destruct E as [S1 _].
    + rewrite addDefaultShader_run. cbn [snd].
      eapply same_settings_trans; [exact S1 | apply same_settings_push].
    + exact S1.
Qed.

(** When loading throws, the constructor keeps the passes built before the
    throw and appends the default pass. *)
Lemma new_OpenGLOptions_fallback glsl cfg e this' :
  isEmpty (fromUtf8 (video_shader cfg)) = false ->
  addShader (fromUtf8 (video_shader cfg)) (configured glsl cfg) = (inl e, this') ->
  m_shaders (snd (new_OpenGLOptions true glsl cfg)) =
    m_shaders this' ++ [default_pass glsl].
Proof.
  intros Hne E. rewrite new_OpenGLOptions_load, Hne. unfold try_catch. rewrite E.
  rewrite addDefaultShader_run. cbn [snd push_shader m_shaders].
  apply addShader_grows in E. destruct E as [(_ & _ & _ & _ & Hv) _].
  rewrite <- Hv. reflexivity.
Qed.

(** ** The parameters of a pass *)

Lemma bind_parameters_filter shader (P : list (QString * GLfloat)) :
  bind_parameters shader P =
    map (fun p => (uniformLocation shader (fst p), snd p))
      (List.filter (fun p => negb (uniformLocation shader (fst p) =? -1)%Z) P).
Proof.
  induction P as [| p P IH]; cbn; [reflexivity |].
  destruct (uniformLocation shader (fst p) =? -1)%Z; cbn; rewrite IH; reflexivity.
Qed.

(** Claim C7.  A pass that assembles and links keeps, of the parameters [P]
    it was given, exactly those whose name has a location in the linked
    program (the others are dropped without an error), each with its value,
    in the order of [P]. *)
Theorem linked_pass_binds_known_parameters source path P this this' :
  addShader3 source path P this = (inr tt, this') ->
  exists pass,
    m_shaders this' = m_shaders this ++ [pass] /\
    linked (m_shader pass) = true /\
    m_path pass = path /\
    m_parameters pass =
      map (fun p => (uniformLocation (m_shader pass) (fst p), snd p))
        (List.filter (fun p => negb (uniformLocation (m_shader pass) (fst p) =? -1)%Z) P).
Proof.
  intros H. apply addShader3_success in H. subst this'.
  eexists. split; [reflexivity |].
  cbn [m_shader m_path m_parameters new_OpenGLShaderPass].
  split; [apply built_program_linked |].
  split; [reflexivity | apply bind_parameters_filter].
Qed.

(** ** Raw shader or preset *)

(** Claim C2, as the code has it.  A resource whose text [fromJson] does not
    parse is handed whole to the assembler, once, under the path it was
    loaded from and without parameters; when that succeeds the pipeline has
    one more pass, with that path and no parameter. *)
Theorem unparsed_text_is_one_raw_shader path bytes this :
  file_content path = Some bytes ->
  fromJson bytes = DocNull ->
  addShader path this = addShader3 (fromUtf8 bytes) path [] this /\
  forall this', addShader path this = (inr tt, this') ->
    exists pass,
      m_shaders this' = m_shaders this ++ [pass] /\
      m_path pass = path /\ m_parameters pass = [].
Proof.
  intros Hf Hj.
  assert (E : addShader path this = addShader3 (fromUtf8 bytes) path [] this).
  { unfold addShader, bind, readTextFile. rewrite Hf. cbn. rewrite Hj. reflexivity. }
  split; [exact E |].
  intros this' H. rewrite E in H.
  apply addShader3_success in H. subst this'.
  eexists. split; [reflexivity |]. split; reflexivity.
Qed.

(** ** The pipeline after construction *)

Lemma push_shader_nonempty pass this : m_shaders (push_shader pass this) <> [].
Proof. cbn. destruct (m_shaders this); discriminate. Qed.

(** Claim C4, as the code has it.  Without [loadConfig] the constructor
    returns an empty pipeline.  With [loadConfig] the pipeline has a pass,
    unless the persisted path names a JSON document that lists no shader. *)
Theorem pipeline_after_construction glsl cfg :
  m_shaders (snd (new_OpenGLOptions false glsl cfg)) = [] /\
  (names_empty_preset cfg = false ->
   m_shaders (snd (new_OpenGLOptions true glsl cfg)) <> []).
Proof.
  split; [reflexivity |].
  unfold names_empty_preset. rewrite new_OpenGLOptions_load.
  destruct (isEmpty (fromUtf8 (video_shader cfg))) eqn:Hp; cbn [negb andb].
  - intros _. rewrite addDefaultShader_run. apply push_shader_nonempty.
  - unfold try_catch.
    destruct (addShader _ _) as [[e | []] this'] eqn:E.
    + intros _. rewrite addDefaultShader_run. apply push_shader_nonempty.
    + cbn [snd]. revert E. unfold addShader, bind, readTextFile.
      destruct (file_content _) as [bytes |]; cbn; [| discriminate].
      destruct (isNull (fromJson bytes)); cbn [negb andb].
      * intros E _. apply addShader3_grows in E.
        destruct E as (_ & extra & G & L). rewrite G.
        specialize (L eq_refl). destruct extra; [discriminate |].
        destruct (m_shaders (configured glsl cfg)); discriminate.
      * intros E Hl. apply for_each_items_grows in E.
        destruct E as (_ & extra & G & L). rewrite G.
        specialize (L eq_refl).
        destruct (toArray _); [discriminate |].
        destruct extra; [discriminate |].
        destruct (m_shaders (configured glsl cfg)); discriminate.
Qed.

(** ** [save] and the filter *)

Lemma do_calls_config cs this cfg : snd (do_calls cs (this, cfg)) = cfg.
Proof.
  unfold do_calls. revert this.
  induction cs as [| c cs IH]; intros this; cbn [fold_left]; [reflexivity |].
  destruct c; cbn [do_call fst snd]; apply IH.
Qed.

(** Claim C9.  Whatever setters are called, [setFilter] among them, the
    globals stay as they were and [filter()] answers from the global filter
    method read at the call: [Nearest] when it is 0, [Linear] otherwise.
    [setFilter] alone does not change the answer; after [save] has written
    the global the answer is the [m_filter] that was set. *)
Theorem filter_reads_the_global cs this cfg :
  let w := do_calls cs (this, cfg) in
  snd w = cfg /\
  filter (fst w) (snd w) =
    (if (video_filter_method cfg =? 0)%Z then Nearest else Linear) /\
  (forall v, filter (setFilter v (fst w)) (snd w) = filter (fst w) (snd w)) /\
  filter (fst w) (config_after (save (fst w) (snd w))) = m_filter (fst w).
Proof.
  cbn zeta. rewrite do_calls_config.
  split; [reflexivity |]. split; [reflexivity |]. split; [reflexivity |].
  unfold filter, save.
  destruct (m_shaders (fst (do_calls cs (this, cfg))));
    cbn [config_after video_filter_method];
    destruct (m_filter (fst (do_calls cs (this, cfg)))); reflexivity.
Qed.

(** Claim C10.  [save] reads the first pass whatever the pipeline holds: on
    an empty pipeline, such as the one the constructor leaves without
    [loadConfig], it reads the first element of an empty list, and on a
    pipeline with a pass it never does. *)
Theorem save_needs_a_pass this cfg :
  (m_shaders this = [] <-> exists c, save this cfg = FirstOfEmptyList c) /\
  (m_shaders this <> [] <-> exists c, save this cfg = Saved c) /\
  (forall glsl cfg0,
     exists c, save (snd (new_OpenGLOptions false glsl cfg0)) cfg = FirstOfEmptyList c).
Proof.
  unfold save. split; [| split].
  - destruct (m_shaders this); split.
    + intros _. eexists. reflexivity.
    + reflexivity.
    + discriminate.
    + intros [c H]. discriminate.
  - destruct (m_shaders this); split.
    + intros H. contradiction.
    + intros [c H]. discriminate.
    + intros _. eexists. reflexivity.
    + discriminate.
  - intros glsl cfg0. rewrite new_OpenGLOptions_noload. cbn. eexists. reflexivity.
Qed.


End Properties.

(** ** The matcher *)

Section Matcher.

Import Rx.

Variable c : cclass.
Variable k : cursor -> option cursor.

Lemma rev_append_app (a b d : list ascii) :
  rev_append (a ++ b) d = rev_append b (rev_append a d).
Proof. revert d. induction a as [| x a IH]; intros d; cbn; [reflexivity | apply IH]. Qed.

Lemma greedy_stops bef aft cp :
  stops c aft = true -> greedy c k bef aft cp = k (Cursor bef aft cp).
Proof.
  destruct aft as [| x t]; cbn; [reflexivity |].
  destruct (c x); [discriminate | reflexivity].
Qed.

(** A greedy repetition whose longer attempts all fail. *)
Lemma greedy_falls_back w : forall bef rest cp,
  forallb c w = true -> stops c rest = true ->
  (forall pre post, w = pre ++ post -> pre <> [] ->
     k (Cursor (rev_append pre bef) (post ++ rest) cp) = None) ->
  greedy c k bef (w ++ rest) cp = k (Cursor bef (w ++ rest) cp).
Proof.
  induction w as [| x w IH]; intros bef rest cp Hw Hs Hk.
  - apply greedy_stops, Hs.
  - cbn in Hw. apply andb_prop in Hw. destruct Hw as [Hx Hw].
    cbn [app greedy]. rewrite Hx.
    rewrite IH; [| exact Hw | exact Hs |].
    + assert (H0 := Hk [x] w eq_refl). cbn in H0. rewrite H0 by discriminate. reflexivity.
    + intros pre post E Hne. apply (Hk (x :: pre) post); [rewrite E; reflexivity | discriminate].
Qed.

(** A greedy repetition gives characters back until the rest of the
    pattern matches. *)
Lemma greedy_gives_back w1 : forall bef w2 rest cp r,
  forallb c w1 = true -> forallb c w2 = true -> stops c rest = true ->
  (forall pre post, w2 = pre ++ post -> pre <> [] ->
     k (Cursor (rev_append pre (rev_append w1 bef)) (post ++ rest) cp) = None) ->
  k (Cursor (rev_append w1 bef) (w2 ++ rest) cp) = Some r ->
  greedy c k bef (w1 ++ w2 ++ rest) cp = Some r.
Proof.
  induction w1 as [| x w1 IH]; intros bef w2 rest cp r H1 H2 Hs Hk Hr.
  - cbn [app rev_append] in *. rewrite greedy_falls_back; assumption.
  - cbn in H1. apply andb_prop in H1. destruct H1 as [Hx H1].
    cbn [app greedy]. rewrite Hx.
    rewrite (IH (x :: bef) w2 rest cp r); try assumption. reflexivity.
Qed.

Lemma greedy_longest w bef rest cp r :
  forallb c w = true -> stops c rest = true ->
  k (Cursor (rev_append w bef) rest cp) = Some r ->
  greedy c k bef (w ++ rest) cp = Some r.
Proof.
  intros Hw Hs Hr.
  apply (@greedy_gives_back w bef [] rest cp r); try assumption; try reflexivity.
  intros pre post E. destruct pre; [congruence | discriminate].
Qed.

Lemma greedy_fails w bef rest cp :
  forallb c w = true -> stops c rest = true ->
  (forall pre post, w = pre ++ post ->
     k (Cursor (rev_append pre bef) (post ++ rest) cp) = None) ->
  greedy c k bef (w ++ rest) cp = None.
Proof.
  intros Hw Hs Hk. rewrite greedy_falls_back; try assumption.
  - apply (Hk [] w eq_refl).
  - intros pre post E _. apply Hk, E.
Qed.

Lemma lazy_shortest bef aft cp r :
  k (Cursor bef aft cp) = Some r -> lazy c k bef aft cp = Some r.
Proof. intros H. destruct aft; cbn; rewrite H; reflexivity. Qed.

Lemma greedy_sound : forall aft bef cp e,
  greedy c k bef aft cp = Some e ->
  exists w t, aft = w ++ t /\ forallb c w = true /\
    k (Cursor (rev_append w bef) t cp) = Some e.
Proof.
  induction aft as [| x aft IH]; intros bef cp e H; cbn in H.
  - exists [], []. auto.
  - destruct (c x) eqn:Hx.
    + destruct (greedy c k (x :: bef) aft cp) as [e' |] eqn:G; cbn in H.
      * inversion H; subst e'. apply IH in G. destruct G as (w & t & E & Hw & Hk).
        exists (x :: w), t. subst aft. cbn. rewrite Hx. auto.
      * exists [], (x :: aft). auto.
    + exists [], (x :: aft). auto.
Qed.

Lemma lazy_sound : forall aft bef cp e,
  lazy c k bef aft cp = Some e ->
  exists w t, aft = w ++ t /\ forallb c w = true /\
    k (Cursor (rev_append w bef) t cp) = Some e.
Proof.
  induction aft as [| x aft IH]; intros bef cp e H; cbn in H.
  - destruct (k (Cursor bef [] cp)) eqn:K; cbn in H; [| discriminate].
    exists [], []. inversion H; subst. auto.
  - destruct (k (Cursor bef (x :: aft) cp)) eqn:K; cbn in H.
    + exists [], (x :: aft). inversion H; subst. auto.
    + destruct (c x) eqn:Hx; [| discriminate].
      apply IH in H. destruct H as (w & t & E & Hw & Hk).
      exists (x :: w), t. subst aft. cbn. rewrite Hx. auto.
Qed.

End Matcher.

(** Every result of [run] comes from a path through the pattern. *)
Lemma run_sound r : forall k cur e,
  Rx.run r k cur = Some e ->
  exists cur', Rx.Matches r cur cur' /\ k cur' = Some e.
Proof.
  induction r as [| | s | c | c | c | r IH | n r IH | r1 IH1 r2 IH2];
    intros k cur e H; cbn in H.
  - exists cur. split; [constructor | exact H].
  - destruct (Rx.at_bol _ _) eqn:Hb; [| discriminate].
    exists cur. split; [constructor; exact Hb | exact H].
  - destruct (Rx.eat s (Rx.after cur)) as [aft' |] eqn:He; [| discriminate].
    eexists. split; [constructor; exact He | exact H].
  - destruct (Rx.after cur) as [| x t] eqn:Ha; [discriminate |].
    destruct (c x) eqn:Hx; [| discriminate].
    eexists. split; [econstructor; eassumption | exact H].
  - apply greedy_sound in H. destruct H as (w & t & E & Hw & Hk).
    eexists. split; [econstructor; eassumption | exact Hk].
  - apply lazy_sound in H. destruct H as (w & t & E & Hw & Hk).
    eexists. split; [econstructor; eassumption | exact Hk].
  - destruct (Rx.run r k cur) as [e' |] eqn:R; cbn in H.
    + inversion H; subst e'. apply IH in R. destruct R as (cur' & M & Hk).
      exists cur'. split; [apply Rx.M_Opt_take; exact M | exact Hk].
    + exists cur. split; [apply Rx.M_Opt_skip | exact H].
  - apply IH in H. destruct H as (cur' & M & Hk).
    eexists. split; [apply Rx.M_Cap; exact M | exact Hk].
  - apply IH1 in H. destruct H as (mid & M1 & H).
    apply IH2 in H. destruct H as (cur' & M2 & Hk).
    exists cur'. split; [econstructor; eassumption | exact Hk].
Qed.



(** ** Steps of [run] *)

Section Steps.

Import Rx.

Variable k : cursor -> option cursor.

Lemma eqc_refl a : eqc a a = true.
Proof. apply Ascii.eqb_refl. Qed.

Lemma eqc_eq a b : eqc a b = true -> a = b.
Proof. apply Ascii.eqb_eq. Qed.

Lemma eat_app s rest : eat s (s ++ rest) = Some rest.
Proof. induction s as [| x s IH]; cbn; [reflexivity |]. rewrite eqc_refl. exact IH. Qed.

Lemma run_Cat r1 r2 cur : run (Cat r1 r2) k cur = run r1 (run r2 k) cur.
Proof. reflexivity. Qed.

Lemma run_Cap n r bef aft cp :
  run (Cap n r) k (Cursor bef aft cp) =
    run r (fun cur' => k (set_cap n (firstn (length aft - length (after cur')) aft) cur'))
      (Cursor bef aft cp).
Proof. reflexivity. Qed.

Lemma run_Bol bef aft cp :
  at_bol bef aft = true -> run Bol k (Cursor bef aft cp) = k (Cursor bef aft cp).
Proof. intros H. cbn. rewrite H. reflexivity. Qed.

Lemma run_Bol_fails bef aft cp :
  at_bol bef aft = false -> run Bol k (Cursor bef aft cp) = None.
Proof. intros H. cbn. rewrite H. reflexivity. Qed.

Lemma run_Star_fails c w bef rest cp :
  forallb c w = true -> stops c rest = true ->
  (forall pre post, w = pre ++ post ->
     k (Cursor (rev_append pre bef) (post ++ rest) cp) = None) ->
  run (Star c) k (Cursor bef (w ++ rest) cp) = None.
Proof. intros. cbn. apply greedy_fails; assumption. Qed.

Lemma run_Lit s bef rest cp :
  run (Lit s) k (Cursor bef (s ++ rest) cp) = k (Cursor (rev_append s bef) rest cp).
Proof. cbn. rewrite eat_app. reflexivity. Qed.

Lemma run_Lit_fails s bef aft cp :
  eat s aft = None -> run (Lit s) k (Cursor bef aft cp) = None.
Proof. intros H. cbn. rewrite H. reflexivity. Qed.

Lemma run_Star_longest c w bef rest cp r :
  forallb c w = true -> stops c rest = true ->
  k (Cursor (rev_append w bef) rest cp) = Some r ->
  run (Star c) k (Cursor bef (w ++ rest) cp) = Some r.
Proof. intros. cbn. apply greedy_longest; assumption. Qed.

Lemma run_Plus_longest c w bef rest cp r :
  nonempty w = true -> forallb c w = true -> stops c rest = true ->
  k (Cursor (rev_append w bef) rest cp) = Some r ->
  run (Plus c) k (Cursor bef (w ++ rest) cp) = Some r.
Proof.
  intros Hn Hw Hs Hr. destruct w as [| x w]; [discriminate |].
  cbn in Hw. apply andb_prop in Hw. destruct Hw as [Hx Hw].
  unfold Plus. cbn. rewrite Hx. apply greedy_longest; assumption.
Qed.

Lemma run_Plus_fails c bef aft cp :
  starts_with c aft = false -> run (Plus c) k (Cursor bef aft cp) = None.
Proof.
  intros H. unfold Plus. cbn. destruct aft as [| x t]; [reflexivity |].
  cbn in H. rewrite H. reflexivity.
Qed.

Lemma run_Opt_take r cur e :
  run r k cur = Some e -> run (Opt r) k cur = Some e.
Proof. intros H. cbn. rewrite H. reflexivity. Qed.

Lemma run_Opt_skip r cur :
  run r k cur = None -> run (Opt r) k cur = k cur.
Proof. intros H. cbn. rewrite H. reflexivity. Qed.

Lemma run_LazyStar_shortest c bef aft cp r :
  k (Cursor bef aft cp) = Some r ->
  run (LazyStar c) k (Cursor bef aft cp) = Some r.
Proof. intros. cbn. apply lazy_shortest; assumption. Qed.

End Steps.

(** ** Character classes *)

Lemma word_not_space x : Rx.word x = true -> Rx.space x = false.
Proof. by_cases_on_char x. Qed.

Lemma space_not_word x : Rx.space x = true -> Rx.word x = false.
Proof. by_cases_on_char x. Qed.

Lemma word_no_percent x : Rx.word x = true -> eqc x "%" = false.
Proof. by_cases_on_char x. Qed.

Lemma space_no_percent x : Rx.space x = true -> eqc x "%" = false.
Proof. by_cases_on_char x. Qed.

Lemma space_not_hash x : Rx.space x = true -> eqc "#" x = false.
Proof. by_cases_on_char x. Qed.

Lemma space_not_numeric x : Rx.space x = true -> PragmaSource.numeric x = false.
Proof. by_cases_on_char x. Qed.

Lemma numeric_not_space x : PragmaSource.numeric x = true -> Rx.space x = false.
Proof. by_cases_on_char x. Qed.

Lemma digit_not_space x : Rx.dot_or_digit x = true -> Rx.space x = false.
Proof. by_cases_on_char x. Qed.

Lemma digit_not_minus x : Rx.dot_or_digit x = true -> eqc "-" x = false.
Proof. by_cases_on_char x. Qed.

Lemma digit_numeric x : Rx.dot_or_digit x = true -> PragmaSource.numeric x = true.
Proof. by_cases_on_char x. Qed.

Lemma digit_in_description x :
  Rx.dot_or_digit x = true -> PragmaSource.in_description x = true.
Proof. by_cases_on_char x. Qed.

Lemma in_description_any x : PragmaSource.in_description x = true -> Rx.any x = true.
Proof. by_cases_on_char x. Qed.

Lemma in_description_not_quote x :
  PragmaSource.in_description x = true -> eqc quote x = false.
Proof. by_cases_on_char x. Qed.

Lemma any_not_newline x : Rx.any x = true -> eqc x newline = false.
Proof. by_cases_on_char x. Qed.

Lemma stops_app (c p : Rx.cclass) w rest :
  (forall x, p x = true -> c x = false) ->
  starts_with p w = true -> Rx.stops c (w ++ rest) = true.
Proof.
  intros Hd Hw. destruct w as [| x w]; [discriminate |].
  cbn in *. rewrite (Hd x Hw). reflexivity.
Qed.

Lemma starts_with_forallb (p : Rx.cclass) w :
  nonempty w = true -> forallb p w = true -> starts_with p w = true.
Proof.
  destruct w as [| x w]; [discriminate |]. cbn. intros _ H.
  apply andb_prop in H. apply H.
Qed.

(** ** Cutting matches out of a text *)

Section Cutting.

Import Rx.

Variable re : regex.

Lemma remove_from_skip m : forall bef rest,
  remove_from re (length m) bef (m ++ rest) = remove_from re 0 (rev_append m bef) rest.
Proof.
  induction m as [| x m IH]; intros bef rest; cbn [length app rev_append].
  - destruct rest; reflexivity.
  - cbn [remove_from]. apply IH.
Qed.

(** A position where the pattern does not match keeps its character. *)
Lemma remove_from_keep bef x t :
  exec re false bef (x :: t) = None ->
  remove_from re 0 bef (x :: t) = x :: remove_from re 0 (x :: bef) t.
Proof. intros H. cbn [remove_from]. rewrite H. reflexivity. Qed.

(** A match is dropped, and the search goes on behind it. *)
Lemma remove_from_cut bef m rest e :
  nonempty m = true ->
  exec re false bef (m ++ rest) = Some e -> after e = rest ->
  remove_from re 0 bef (m ++ rest) = remove_from re 0 (rev_append m bef) rest.
Proof.
  intros Hm He Ha. destruct m as [| x m]; [discriminate |].
  cbn [app remove_from]. cbn [app] in He. rewrite He, Ha.
  replace (length (x :: m ++ rest) - length rest) with (S (length m))
    by (cbn [length]; rewrite length_app; lia).
  cbn [Nat.eqb rev_append]. apply remove_from_skip.
Qed.

(** A stretch of text none of whose positions starts a match is kept. *)
Lemma remove_from_stretch seg : forall bef rest,
  (forall pre post, seg = pre ++ post -> nonempty post = true ->
     exec re false (rev_append pre bef) (post ++ rest) = None) ->
  remove_from re 0 bef (seg ++ rest) = seg ++ remove_from re 0 (rev_append seg bef) rest.
Proof.
  induction seg as [| x seg IH]; intros bef rest H; cbn [app rev_append].
  - reflexivity.
  - rewrite remove_from_keep by (apply (H [] (x :: seg) eq_refl); reflexivity).
    f_equal. apply IH. intros pre post E Hp.
    apply (H (x :: pre) post); [rewrite E; reflexivity | exact Hp].
Qed.

Lemma search_hit bef aft e :
  exec re false bef aft = Some e -> search re bef aft = Some (Cursor bef aft [], e).
Proof. intros H. destruct aft; cbn [search]; rewrite H; reflexivity. Qed.

Lemma search_stretch seg : forall bef rest,
  (forall pre post, seg = pre ++ post -> nonempty post = true ->
     exec re false (rev_append pre bef) (post ++ rest) = None) ->
  search re bef (seg ++ rest) = search re (rev_append seg bef) rest.
Proof.
  induction seg as [| x seg IH]; intros bef rest H; cbn [app rev_append].
  - reflexivity.
  - cbn [search].
    assert (H0 := H [] (x :: seg) eq_refl eq_refl). cbn in H0. rewrite H0.
    apply IH. intros pre post E Hp.
    apply (H (x :: pre) post); [rewrite E; reflexivity | exact Hp].
Qed.

End Cutting.

(** Both patterns start with [^]: inside a line nothing matches. *)
Lemma exec_inside_line r x bef aft :
  eqc x newline = false ->
  Rx.exec (Rx.Cat Rx.Bol r) false (x :: bef) aft = None.
Proof.
  intros H. unfold Rx.exec. cbn [Rx.run Rx.at_bol Rx.before Rx.after].
  rewrite H. reflexivity.
Qed.

Lemma last_char_of_line l : forall x bef,
  one_line l = true -> eqc x newline = false ->
  exists y bef', rev_append l (x :: bef) = y :: bef' /\ eqc y newline = false.
Proof.
  induction l as [| z l IH]; intros x bef Hl Hx; cbn.
  - eauto.
  - cbn in Hl. apply andb_prop in Hl. destruct Hl as [Hz Hl].
    apply IH; [exact Hl | apply any_not_newline, Hz].
Qed.

(** The characters of a line after a position inside it, and its line
    feed, are kept. *)
Lemma remove_from_inside_line r l x bef rest :
  one_line l = true -> eqc x newline = false ->
  Rx.remove_from (Rx.Cat Rx.Bol r) 0 (x :: bef) (l ++ newline :: rest) =
    l ++ newline :: Rx.remove_from (Rx.Cat Rx.Bol r) 0 (newline :: rev_append l (x :: bef)) rest.
Proof.
  intros Hl Hx.
  rewrite remove_from_stretch.
  - f_equal. destruct (last_char_of_line l x bef Hl Hx) as (y & bef' & E & Hy).
    rewrite E. rewrite remove_from_keep by (apply exec_inside_line, Hy). reflexivity.
  - intros pre post E Hp.
    assert (Hpre : one_line pre = true).
    { subst l. unfold one_line in *. rewrite forallb_app in Hl.
      apply andb_prop in Hl. apply Hl. }
    destruct (last_char_of_line pre x bef Hpre Hx) as (y & bef' & E' & Hy).
    rewrite E'. apply exec_inside_line, Hy.
Qed.

Lemma search_inside_line r l x bef rest :
  one_line l = true -> eqc x newline = false ->
  Rx.search (Rx.Cat Rx.Bol r) (x :: bef) (l ++ newline :: rest) =
    Rx.search (Rx.Cat Rx.Bol r) (newline :: rev_append l (x :: bef)) rest.
Proof.
  intros Hl Hx.
  rewrite search_stretch.
  - destruct (last_char_of_line l x bef Hl Hx) as (y & bef' & E & Hy).
    rewrite E. cbn [Rx.search]. rewrite exec_inside_line by exact Hy. reflexivity.
  - intros pre post E Hp.
    assert (Hpre : one_line pre = true).
    { subst l. unfold one_line in *. rewrite forallb_app in Hl.
      apply andb_prop in Hl. apply Hl. }
    destruct (last_char_of_line pre x bef Hpre Hx) as (y & bef' & E' & Hy).
    rewrite E'. apply exec_inside_line, Hy.
Qed.


Lemma remove_from_inside_text r l x bef :
  one_line l = true -> eqc x newline = false ->
  Rx.remove_from (Rx.Cat Rx.Bol r) 0 (x :: bef) l = l.
Proof.
  intros Hl Hx. rewrite <- (app_nil_r l) at 1.
  rewrite remove_from_stretch.
  - cbn. apply app_nil_r.
  - intros pre post E Hp.
    assert (Hpre : one_line pre = true).
    { subst l. unfold one_line in *. rewrite forallb_app in Hl.
      apply andb_prop in Hl. apply Hl. }
    destruct (last_char_of_line pre x bef Hpre Hx) as (y & bef' & E' & Hy).
    rewrite E'. apply exec_inside_line, Hy.
Qed.

Lemma search_inside_text r l x bef :
  one_line l = true -> eqc x newline = false ->
  Rx.search (Rx.Cat Rx.Bol r) (x :: bef) l = None.
Proof.
  intros Hl Hx. rewrite <- (app_nil_r l).
  rewrite search_stretch.
  - destruct (last_char_of_line l x bef Hl Hx) as (y & bef' & E & Hy).
    rewrite E. cbn [Rx.search]. rewrite exec_inside_line by exact Hy. reflexivity.
  - intros pre post E Hp.
    assert (Hpre : one_line pre = true).
    { subst l. unfold one_line in *. rewrite forallb_app in Hl.
      apply andb_prop in Hl. apply Hl. }
    destruct (last_char_of_line pre x bef Hpre Hx) as (y & bef' & E' & Hy).
    rewrite E'. apply exec_inside_line, Hy.
Qed.

Lemma take_drop_space t :
  t = take_space t ++ drop_space t /\
  forallb Rx.space (take_space t) = true /\
  Rx.stops Rx.space (drop_space t) = true.
Proof.
  induction t as [| x t IH]; cbn; [auto |].
  destruct (Rx.space x) eqn:Hx; cbn.
  - rewrite Hx. destruct IH as (E & Hw & Hs). rewrite <- E. auto.
  - rewrite Hx. auto.
Qed.

Lemma forallb_suffix (p : ascii -> bool) pre post :
  forallb p (pre ++ post) = true -> forallb p post = true.
Proof. rewrite forallb_app. intros H. apply andb_prop in H. apply H. Qed.

(** White space and a last line in which the pattern finds nothing are
    kept, and hold no match. *)
Lemma remove_from_last r ws l bef :
  forallb Rx.space ws = true -> one_line l = true ->
  (forall post b, forallb Rx.space post = true ->
     Rx.exec (Rx.Cat Rx.Bol r) false b (post ++ l) = None) ->
  Rx.remove_from (Rx.Cat Rx.Bol r) 0 bef (ws ++ l) = ws ++ l.
Proof.
  intros Hws Hl Hnone. rewrite remove_from_stretch.
  - f_equal. destruct l as [| c l]; [reflexivity |].
    rewrite remove_from_keep by (apply (Hnone [] _ eq_refl)).
    cbn in Hl. apply andb_prop in Hl. destruct Hl as [Hc Hl].
    rewrite remove_from_inside_text; [reflexivity | exact Hl | apply any_not_newline, Hc].
  - intros pre post E _. apply Hnone. subst ws. apply (forallb_suffix _ _ _ Hws).
Qed.

Lemma search_last r ws l bef :
  forallb Rx.space ws = true -> one_line l = true ->
  (forall post b, forallb Rx.space post = true ->
     Rx.exec (Rx.Cat Rx.Bol r) false b (post ++ l) = None) ->
  Rx.search (Rx.Cat Rx.Bol r) bef (ws ++ l) = None.
Proof.
  intros Hws Hl Hnone. rewrite search_stretch.
  - destruct l as [| c l]; cbn [Rx.search].
    + rewrite (Hnone [] _ eq_refl). reflexivity.
    + rewrite (Hnone [] _ eq_refl).
      cbn in Hl. apply andb_prop in Hl. destruct Hl as [Hc Hl].
      apply search_inside_text; [exact Hl | apply any_not_newline, Hc].
  - intros pre post E _. apply Hnone. subst ws. apply (forallb_suffix _ _ _ Hws).
Qed.

(** ** The version pattern *)

Lemma version_shape : version = Rx.Cat Rx.Bol version_tail.
Proof. reflexivity. Qed.

Lemma firstn_front (m t : list ascii) :
  firstn (length (m ++ t) - length t) (m ++ t) = m.
Proof.
  replace (length (m ++ t) - length t) with (length m) by (rewrite length_app; lia).
  rewrite firstn_app, Nat.sub_diag, firstn_all. cbn. apply app_nil_r.
Qed.

(** No directive behind the white space: no match, at any line start. *)
Lemma version_no_match lead body bef :
  forallb Rx.space lead = true -> Rx.stops Rx.space body = true ->
  Rx.eat (txt "#version") body = None ->
  Rx.exec version false bef (lead ++ body) = None.
Proof.
  intros Hl Hs He. unfold Rx.exec. rewrite version_shape, run_Cat.
  destruct (Rx.at_bol bef (lead ++ body)) eqn:Hb;
    [rewrite run_Bol by exact Hb | apply run_Bol_fails, Hb].
  unfold version_tail. cbn [version Rx.seq]. rewrite run_Cat.
  apply run_Star_fails; [exact Hl | exact Hs |].
  intros pre post E.
  rewrite run_Cap, run_Cat. apply run_Lit_fails.
  destruct post as [| x post]; [exact He |].
  assert (Hx : Rx.space x = true).
  { subst lead. rewrite forallb_app in Hl. apply andb_prop in Hl.
    destruct Hl as [_ Hl]. cbn in Hl. apply andb_prop in Hl. apply Hl. }
  cbn [Rx.eat txt list_ascii_of_string app].
  rewrite (space_not_hash x Hx). reflexivity.
Qed.

(** A directive behind the white space: the match runs to the end of its
    word, and group 1 is the directive. *)
Lemma version_match lead gap w tail bef :
  Rx.at_bol bef (lead ++ txt "#version" ++ gap ++ w ++ tail) = true ->
  forallb Rx.space lead = true ->
  nonempty gap = true -> forallb Rx.space gap = true ->
  nonempty w = true -> forallb Rx.word w = true ->
  Rx.stops Rx.word tail = true ->
  exists e,
    Rx.exec version false bef (lead ++ txt "#version" ++ gap ++ w ++ tail) = Some e /\
    Rx.after e = tail /\
    Rx.caps e = [(1, txt "#version" ++ gap ++ w)].
Proof.
  intros Hb Hl Hgn Hg Hwn Hw Hs.
  eexists. split; [| split].
  - unfold Rx.exec. rewrite version_shape, run_Cat, run_Bol by exact Hb.
    unfold version_tail. cbn [version Rx.seq]. rewrite run_Cat.
    apply run_Star_longest; [exact Hl | reflexivity |].
    rewrite run_Cap, run_Cat, run_Lit, run_Cat.
    apply run_Plus_longest; [exact Hgn | exact Hg | |].
    { apply stops_app with (p := Rx.word); [apply word_not_space |].
      apply starts_with_forallb; assumption. }
    apply run_Plus_longest; [exact Hwn | exact Hw | exact Hs |].
    cbn [Rx.after Rx.set_cap Rx.before Rx.caps].
    replace (txt "#version" ++ gap ++ w ++ tail)
      with ((txt "#version" ++ gap ++ w) ++ tail)
      by (rewrite <- !app_assoc; reflexivity).
    rewrite firstn_front.
    unfold Rx.accept. cbn [andb]. reflexivity.
  - reflexivity.
  - reflexivity.
Qed.

Lemma eat_none_line s : forall l rest,
  forallb Rx.any s = true -> Rx.eat s l = None ->
  Rx.eat s (l ++ newline :: rest) = None.
Proof.
  induction s as [| x s IH]; intros l rest Hs He; [discriminate |].
  cbn in Hs. apply andb_prop in Hs. destruct Hs as [Hx Hs].
  destruct l as [| y l]; cbn [app Rx.eat].
  - unfold Rx.any in Hx. destruct (eqc x newline); [discriminate | reflexivity].
  - cbn [Rx.eat] in He. destruct (eqc x y); [apply IH; assumption | reflexivity].
Qed.

Lemma at_bol_line_start bef x t :
  line_start bef = true -> Rx.at_bol bef (x :: t) = true.
Proof.
  destruct bef as [| b bef]; cbn; [reflexivity |].
  intros H. rewrite H. reflexivity.
Qed.

Lemma rev_append_last (p : Rx.cclass) w : forall bef,
  nonempty w = true -> forallb p w = true ->
  exists y b, rev_append w bef = y :: b /\ p y = true.
Proof.
  induction w as [| x w IH]; intros bef Hn Hw; [discriminate |].
  cbn in Hw. apply andb_prop in Hw. destruct Hw as [Hx Hw].
  cbn [rev_append]. destruct w as [| z w].
  - cbn. eauto.
  - apply IH; [reflexivity | exact Hw].
Qed.

Lemma word_not_newline x : Rx.word x = true -> eqc x newline = false.
Proof. by_cases_on_char x. Qed.

Lemma stops_word_rest rest more :
  starts_with Rx.word rest = false ->
  Rx.stops Rx.word (rest ++ newline :: more) = true.
Proof.
  destruct rest as [| x rest]; cbn; [reflexivity |].
  intros H. rewrite H. reflexivity.
Qed.

Lemma stops_space_line l rest :
  starts_with Rx.space l = false -> nonempty l = true ->
  Rx.stops Rx.space (l ++ rest) = true.
Proof.
  destruct l as [| x l]; [discriminate |]. cbn. intros H _. rewrite H. reflexivity.
Qed.

Lemma has_prefix_none s l : has_prefix s l = false -> Rx.eat s l = None.
Proof. unfold has_prefix. destruct (Rx.eat s l); [discriminate | reflexivity]. Qed.

(** What stands behind the last line feed holds no directive. *)
Lemma version_last_no_match trailer :
  VersionSource.last_ok trailer = true ->
  forall post b, forallb Rx.space post = true ->
    Rx.exec version false b (post ++ drop_space trailer) = None.
Proof.
  intros H post b Hp. unfold VersionSource.last_ok in H.
  apply andb_prop in H. destruct H as [_ H].
  apply version_no_match; [exact Hp | apply take_drop_space |].
  apply has_prefix_none, negb_true_iff, H.
Qed.

Lemma version_last_kept trailer bef :
  VersionSource.last_ok trailer = true ->
  Rx.remove_from version 0 bef trailer = trailer.
Proof.
  intros H. destruct (take_drop_space trailer) as (E & Hws & _).
  assert (G : Rx.remove_from version 0 bef (take_space trailer ++ drop_space trailer) =
              take_space trailer ++ drop_space trailer).
  { rewrite version_shape. apply remove_from_last; [exact Hws | |].
    - unfold VersionSource.last_ok in H. apply andb_prop in H. apply H.
    - rewrite <- version_shape. apply version_last_no_match, H. }
  rewrite <- E in G. exact G.
Qed.

Lemma version_last_search trailer bef :
  VersionSource.last_ok trailer = true ->
  Rx.search version bef trailer = None.
Proof.
  intros H. destruct (take_drop_space trailer) as (E & Hws & _).
  assert (G : Rx.search version bef (take_space trailer ++ drop_space trailer) = None).
  { rewrite version_shape. apply search_last; [exact Hws | |].
    - unfold VersionSource.last_ok in H. apply andb_prop in H. apply H.
    - rewrite <- version_shape. apply version_last_no_match, H. }
  rewrite <- E in G. exact G.
Qed.

(** Every match of the version pattern is cut out of a source written
    line by line. *)
Lemma remove_version_lines trailer lines : forall bef,
  line_start bef = true ->
  forallb VersionSource.ok lines = true ->
  VersionSource.last_ok trailer = true ->
  Rx.remove_from version 0 bef (VersionSource.source lines trailer) =
    VersionSource.stripped lines trailer.
Proof.
  unfold VersionSource.source, VersionSource.stripped.
  induction lines as [| x lines IH]; intros bef Hb Hok Ht; cbn [map concat app].
  - apply version_last_kept, Ht.
  - cbn [forallb] in Hok. apply andb_prop in Hok. destruct Hok as [Hx Hok].
    destruct x as [lead gap w rest | lead l]; cbn [VersionSource.ok] in Hx;
      repeat (apply andb_prop in Hx; destruct Hx as [Hx ?]);
      cbn [VersionSource.text VersionSource.kept].
    + rewrite <- !app_assoc. cbn [app].
      set (more := concat (map VersionSource.text lines) ++ trailer) in *.
      replace (lead ++ txt "#version" ++ gap ++ w ++ rest ++ newline :: more)
        with ((lead ++ txt "#version" ++ gap ++ w) ++ rest ++ newline :: more)
        by (rewrite <- !app_assoc; reflexivity).
      destruct (version_match lead gap w (rest ++ newline :: more) bef)
        as (e & He & Ha & _); try assumption.
      { destruct lead; apply at_bol_line_start, Hb. }
      { apply stops_word_rest. apply negb_true_iff. assumption. }
      rewrite (remove_from_cut version bef _ _ e).
      * rewrite !rev_append_app.
        destruct (rev_append_last Rx.word w
                    (rev_append gap (rev_append (txt "#version") (rev_append lead bef))))
          as (y & b & E & Hy); try assumption.
        rewrite E.
        rewrite version_shape, remove_from_inside_line, <- version_shape;
          [| assumption | apply word_not_newline, Hy].
        f_equal. f_equal.
        apply IH; [reflexivity | exact Hok | exact Ht].
      * destruct lead; reflexivity.
      * rewrite <- He. f_equal. rewrite <- !app_assoc. reflexivity.
      * exact Ha.
    + rewrite <- !app_assoc. cbn [app].
      set (more := concat (map VersionSource.text lines) ++ trailer) in *.
      assert (Hnone : forall post b, forallb Rx.space post = true ->
                Rx.exec version false b (post ++ l ++ newline :: more) = None).
      { intros post b Hp. apply version_no_match; [exact Hp | |].
        - apply stops_space_line; [apply negb_true_iff |]; assumption.
        - apply eat_none_line; [reflexivity |].
          apply has_prefix_none, negb_true_iff. assumption. }
      rewrite remove_from_stretch.
      * f_equal. destruct l as [| c l]; [discriminate |].
        cbn [app]. rewrite remove_from_keep by (apply (Hnone [] _ eq_refl)).
        f_equal.
        match goal with H : one_line (c :: l) = true |- _ =>
          cbn in H; apply andb_prop in H; destruct H as [Hc Hl] end.
        rewrite version_shape, remove_from_inside_line, <- version_shape;
          [| exact Hl | apply any_not_newline, Hc].
        f_equal. f_equal. apply IH; [reflexivity | exact Hok | exact Ht].
      * intros pre post E _. apply Hnone. subst lead.
        match goal with H : forallb Rx.space (pre ++ post) = true |- _ =>
          apply (forallb_suffix _ _ _ H) end.
Qed.

(** The first match of the version pattern in such a source is its first
    directive. *)
Lemma search_version_lines trailer lines : forall bef,
  line_start bef = true ->
  forallb VersionSource.ok lines = true ->
  VersionSource.last_ok trailer = true ->
  Rx.hasMatch (Rx.search version bef (VersionSource.source lines trailer)) =
    VersionSource.has_directive lines /\
  Rx.captured 1 (Rx.search version bef (VersionSource.source lines trailer)) =
    VersionSource.first_directive [] lines.
Proof.
  unfold VersionSource.source.
  induction lines as [| x lines IH]; intros bef Hb Hok Ht; cbn [map concat app].
  - rewrite (version_last_search trailer bef Ht). split; reflexivity.
  - cbn [forallb] in Hok. apply andb_prop in Hok. destruct Hok as [Hx Hok].
    destruct x as [lead gap w rest | lead l]; cbn [VersionSource.ok] in Hx;
      repeat (apply andb_prop in Hx; destruct Hx as [Hx ?]);
      cbn [VersionSource.text VersionSource.has_directive VersionSource.first_directive];
      rewrite <- !app_assoc; cbn [app];
      set (more := concat (map VersionSource.text lines) ++ trailer) in *.
    + destruct (version_match lead gap w (rest ++ newline :: more) bef)
        as (e & He & Ha & Hc); try assumption.
      { destruct lead; apply at_bol_line_start, Hb. }
      { apply stops_word_rest. apply negb_true_iff. assumption. }
      rewrite (search_hit version _ _ e He).
      cbn [Rx.hasMatch Rx.captured]. rewrite Hc. split; reflexivity.
    + assert (Hnone : forall post b, forallb Rx.space post = true ->
                Rx.exec version false b (post ++ l ++ newline :: more) = None).
      { intros post b Hp. apply version_no_match; [exact Hp | |].
        - apply stops_space_line; [apply negb_true_iff |]; assumption.
        - apply eat_none_line; [reflexivity |].
          apply has_prefix_none, negb_true_iff. assumption. }
      rewrite search_stretch.
      * destruct l as [| c l]; [discriminate |].
        cbn [app Rx.search]. rewrite (Hnone [] _ eq_refl).
        match goal with H : one_line (c :: l) = true |- _ =>
          cbn in H; apply andb_prop in H; destruct H as [Hc Hl] end.
        rewrite version_shape, search_inside_line, <- version_shape;
          [| exact Hl | apply any_not_newline, Hc].
        apply IH; [reflexivity | exact Hok | exact Ht].
      * intros pre post E _. apply Hnone. subst lead.
        match goal with H : forallb Rx.space (pre ++ post) = true |- _ =>
          apply (forallb_suffix _ _ _ H) end.
Qed.

Lemma first_directive_found default lines :
  VersionSource.has_directive lines = true ->
  VersionSource.first_directive default lines = VersionSource.first_directive [] lines.
Proof.
  induction lines as [| [lead gap w rest | lead l] lines IH]; cbn;
    [discriminate | reflexivity | exact IH].
Qed.

Lemma no_directive_kept default lines :
  VersionSource.has_directive lines = false ->
  VersionSource.first_directive default lines = default /\
  map VersionSource.kept lines = map VersionSource.text lines.
Proof.
  induction lines as [| [lead gap w rest | lead l] lines IH]; cbn.
  - split; reflexivity.
  - discriminate.
  - intros H. destruct (IH H) as [H1 H2]. rewrite H1, H2. split; reflexivity.
Qed.

(** Claim C3, as the code has it.  In a source written line by line, the
    version line of the pass is the directive of the first line that
    starts with one (the default when no line does), and the body is the
    source with the directive cut out at the start of every such line, on
    the later lines as well as on the first, together with the blank lines
    and the indentation in front of it: of a line that starts with a
    directive exactly the text behind the word of the directive stays, and
    every other line stays as it was. *)
Theorem every_version_directive_is_removed glslVersion lines trailer :
  forallb VersionSource.ok lines = true ->
  VersionSource.last_ok trailer = true ->
  strip_version glslVersion (VersionSource.source lines trailer) =
    (VersionSource.first_directive glslVersion lines,
     VersionSource.stripped lines trailer).
Proof.
  intros Hok Ht. unfold strip_version, Rx.rx_match.
  destruct (search_version_lines trailer lines [] eq_refl Hok Ht) as [Hm Hc].
  rewrite Hm, Hc.
  destruct (VersionSource.has_directive lines) eqn:Hd.
  - unfold Rx.remove. rewrite remove_version_lines by (reflexivity || assumption).
    rewrite (first_directive_found glslVersion lines Hd). reflexivity.
  - destruct (no_directive_kept glslVersion lines Hd) as [H1 H2].
    unfold VersionSource.source, VersionSource.stripped. rewrite H1, H2. reflexivity.
Qed.

(** ** The parameter pattern *)

Lemma parameter_shape : parameter = Rx.Cat Rx.Bol parameter_tail.
Proof. reflexivity. Qed.

Lemma run_Lit1 k x bef rest cp :
  Rx.run (Rx.Lit [x]) k (Rx.Cursor bef (x :: rest) cp) = k (Rx.Cursor (x :: bef) rest cp).
Proof. apply (run_Lit k [x]). Qed.

Lemma run_Star_stops k c bef aft cp :
  Rx.stops c aft = true ->
  Rx.run (Rx.Star c) k (Rx.Cursor bef aft cp) = k (Rx.Cursor bef aft cp).
Proof. intros H. cbn. apply greedy_stops, H. Qed.

Lemma run_Plus_gives_back k c w1 w2 rest bef cp r :
  nonempty w1 = true -> forallb c w1 = true -> forallb c w2 = true ->
  Rx.stops c rest = true ->
  (forall pre post, w2 = pre ++ post -> nonempty pre = true ->
     k (Rx.Cursor (rev_append pre (rev_append w1 bef)) (post ++ rest) cp) = None) ->
  k (Rx.Cursor (rev_append w1 bef) (w2 ++ rest) cp) = Some r ->
  Rx.run (Rx.Plus c) k (Rx.Cursor bef (w1 ++ w2 ++ rest) cp) = Some r.
Proof.
  intros Hn H1 H2 Hs Hk Hr. destruct w1 as [| x w1]; [discriminate |].
  cbn in H1. apply andb_prop in H1. destruct H1 as [Hx H1].
  unfold Rx.Plus. cbn. rewrite Hx.
  apply greedy_gives_back; try assumption.
  intros pre post E Hp. apply Hk; [exact E |]. destruct pre; [congruence | reflexivity].
Qed.

(** A number is read whole. *)
Lemma run_number k n bef rest cp r :
  PragmaSource.number_ok n = true -> Rx.stops Rx.dot_or_digit rest = true ->
  k (Rx.Cursor (rev_append (PragmaSource.number_text n) bef) rest cp) = Some r ->
  Rx.run rx_number k (Rx.Cursor bef (PragmaSource.number_text n ++ rest) cp) = Some r.
Proof.
  intros Hn Hs Hr. unfold PragmaSource.number_ok in Hn.
  apply andb_prop in Hn. destruct Hn as [Hne Hd].
  unfold rx_number. rewrite run_Cat.
  destruct n as [[|] d]; unfold PragmaSource.number_text in *;
    cbn [PragmaSource.negative PragmaSource.digits] in *.
  - apply run_Opt_take. rewrite <- app_assoc, run_Lit.
    rewrite rev_append_app in Hr.
    apply run_Plus_longest; assumption.
  - cbn [app] in *. rewrite run_Opt_skip.
    + apply run_Plus_longest; assumption.
    + apply run_Lit_fails. destruct d as [| x d]; [discriminate |].
      cbn in Hd. apply andb_prop in Hd. destruct Hd as [Hx _].
      cbn [Rx.eat txt list_ascii_of_string app].
      rewrite (digit_not_minus x Hx). reflexivity.
Qed.

(** No number where the text does not start like one. *)
Lemma run_number_fails k bef aft cp :
  starts_with PragmaSource.numeric aft = false ->
  Rx.run rx_number k (Rx.Cursor bef aft cp) = None.
Proof.
  intros H. unfold rx_number. rewrite run_Cat.
  destruct aft as [| x aft].
  - rewrite run_Opt_skip by reflexivity. reflexivity.
  - cbn [starts_with] in H. unfold PragmaSource.numeric in H.
    apply orb_false_elim in H. destruct H as [Hm Hd].
    assert (Hm' : eqc "-" x = false).
    { unfold eqc in *. rewrite Ascii.eqb_sym. exact Hm. }
    rewrite run_Opt_skip.
    + apply run_Plus_fails. exact Hd.
    + apply run_Lit_fails. cbn [Rx.eat txt list_ascii_of_string app].
      rewrite Hm'. reflexivity.
Qed.

Lemma number_starts n :
  PragmaSource.number_ok n = true ->
  starts_with PragmaSource.numeric (PragmaSource.number_text n) = true.
Proof.
  unfold PragmaSource.number_ok, PragmaSource.number_text.
  destruct n as [[|] d]; cbn [PragmaSource.negative PragmaSource.digits]; [reflexivity |].
  intros H. apply andb_prop in H. destruct H as [Hn Hd].
  destruct d as [| x d]; [discriminate |].
  cbn in *. apply andb_prop in Hd. apply digit_numeric, Hd.
Qed.

Lemma minus_in_description : PragmaSource.in_description "-" = true.
Proof. reflexivity. Qed.

Lemma number_in_description n :
  PragmaSource.number_ok n = true ->
  forallb PragmaSource.in_description (PragmaSource.number_text n) = true.
Proof.
  unfold PragmaSource.number_ok, PragmaSource.number_text. intros H.
  apply andb_prop in H. destruct H as [_ Hd].
  assert (Hd' : forallb PragmaSource.in_description (PragmaSource.digits n) = true).
  { apply forallb_forall. intros x Hx. apply digit_in_description.
    apply (proj1 (forallb_forall _ _) Hd x Hx). }
  destruct (PragmaSource.negative n); cbn [app txt list_ascii_of_string forallb].
  - rewrite Hd'. reflexivity.
  - exact Hd'.
Qed.

Lemma stops_space_number n rest :
  PragmaSource.number_ok n = true ->
  Rx.stops Rx.space (PragmaSource.number_text n ++ rest) = true.
Proof.
  intros H. apply stops_app with (p := PragmaSource.numeric);
    [apply numeric_not_space | apply number_starts, H].
Qed.

Lemma step_in_description step :
  match step with Some s => PragmaSource.number_ok s | None => true end = true ->
  forallb PragmaSource.in_description (PragmaSource.step_text step) = true.
Proof.
  destruct step as [s |]; cbn [PragmaSource.step_text]; [| reflexivity].
  intros H. cbn [app txt list_ascii_of_string forallb].
  rewrite (number_in_description s H). reflexivity.
Qed.

Lemma forallb_weaken (p q : ascii -> bool) l :
  (forall x, p x = true -> q x = true) -> forallb p l = true -> forallb q l = true.
Proof.
  intros Hpq H. apply forallb_forall. intros x Hx.
  apply Hpq, (proj1 (forallb_forall _ _) H x Hx).
Qed.

(** Behind the third number: an optional fourth, and the line feed. *)
Lemma parameter_line_end step ws body n bef cp :
  match step with Some s => PragmaSource.number_ok s | None => true end = true ->
  forallb Rx.space ws = true -> Rx.stops Rx.space body = true ->
  starts_with PragmaSource.numeric body = false ->
  exists e,
    Rx.run
      (Rx.Cat (Rx.Opt (Rx.Cap 6 (Rx.Cat (Rx.Plus Rx.space) rx_number)))
         (Rx.Cat (Rx.LazyStar Rx.any) (Rx.Lit [newline])))
      (Rx.accept false n)
      (Rx.Cursor bef (PragmaSource.step_text step ++ newline :: ws ++ body) cp) = Some e /\
    Rx.after e = ws ++ body.
Proof.
  intros Hstep Hws Hbody Hnum.
  destruct step as [s |]; cbn [PragmaSource.step_text]; eexists; (split; [| shelve]).
  - rewrite run_Cat. apply run_Opt_take. rewrite run_Cap, run_Cat.
    rewrite <- app_assoc.
    apply run_Plus_longest;
      [reflexivity | reflexivity | apply stops_space_number; assumption |].
    apply run_number; [assumption | reflexivity |].
    close_group.
    rewrite run_Cat.
    apply run_LazyStar_shortest.
    rewrite run_Lit1.
    reflexivity.
  - cbn [app]. rewrite run_Cat. rewrite run_Opt_skip.
    + rewrite run_Cat. apply run_LazyStar_shortest.
      rewrite run_Lit1.
      reflexivity.
    + rewrite run_Cap, run_Cat.
      change (newline :: ws ++ body) with ([newline] ++ ws ++ body).
      unfold Rx.Plus. rewrite run_Cat. cbn [Rx.run Rx.after app].
      change (Rx.space newline) with true. cbv iota.
      cbn [Rx.before Rx.caps].
      apply greedy_fails; [exact Hws | exact Hbody |].
      intros pre post E. apply run_number_fails.
      destruct post as [| x post]; [exact Hnum |].
      cbn [app starts_with]. apply space_not_numeric.
      subst ws. apply forallb_suffix in Hws. cbn in Hws.
      apply andb_prop in Hws. apply Hws.
  Unshelve. all: reflexivity.
Qed.

(** From the line start to the end of the third number. *)
Lemma parameter_line_front identifier description initial minimum maximum step more bef :
  PragmaSource.ok
    (PragmaSource.Pragma identifier description initial minimum maximum step) = true ->
  line_start bef = true ->
  exists bef' cp', forall r,
    Rx.run
      (Rx.Cat (Rx.Opt (Rx.Cap 6 (Rx.Cat (Rx.Plus Rx.space) rx_number)))
         (Rx.Cat (Rx.LazyStar Rx.any) (Rx.Lit [newline])))
      (Rx.accept false (length bef))
      (Rx.Cursor bef' (PragmaSource.step_text step ++ newline :: more) cp') = Some r ->
    Rx.exec parameter false bef
      (PragmaSource.text
         (PragmaSource.Pragma identifier description initial minimum maximum step)
       ++ more) = Some r.
Proof.
  intros Hok Hb.
  cbn [PragmaSource.ok] in Hok.
  repeat (apply andb_prop in Hok; destruct Hok as [Hok ?]).
  rename Hok into Hid0.
  set (line_rest :=
         txt " " ++ PragmaSource.number_text initial ++ txt " "
           ++ PragmaSource.number_text minimum ++ txt " "
           ++ PragmaSource.number_text maximum ++ PragmaSource.step_text step).
  assert (Hrest : forallb PragmaSource.in_description line_rest = true).
  { unfold line_rest. rewrite !forallb_app.
    rewrite !number_in_description, step_in_description by assumption. reflexivity. }
  assert (Etext :
    PragmaSource.text
      (PragmaSource.Pragma identifier description initial minimum maximum step) ++ more =
    txt "#pragma" ++ txt " " ++ txt "parameter" ++ txt " " ++ identifier ++ txt " "
      ++ [quote] ++ description ++ ([quote] ++ line_rest) ++ newline :: more).
  { unfold line_rest. cbn [PragmaSource.text]. rewrite <- !app_assoc. reflexivity. }
  rewrite Etext. clear Etext.
  eexists. eexists. intros r Hr.
  unfold Rx.exec. rewrite parameter_shape, run_Cat, run_Bol
    by (apply at_bol_line_start, Hb).
  unfold parameter_tail. cbn [parameter Rx.seq]. rewrite run_Cat.
  rewrite run_Star_stops by reflexivity.
  rewrite run_Cat, run_Lit, run_Cat.
  apply run_Plus_longest; [reflexivity | reflexivity | reflexivity |].
  rewrite run_Cat, run_Lit, run_Cat.
  apply run_Plus_longest; [reflexivity | reflexivity | |].
  { apply stops_app with (p := Rx.word); [apply word_not_space |].
    apply starts_with_forallb; assumption. }
  rewrite run_Cat, run_Cap.
  apply run_Plus_longest; [assumption | assumption | reflexivity |].
  close_group.
  rewrite run_Cat.
  apply run_Plus_longest; [reflexivity | reflexivity | reflexivity |].
  rewrite run_Cat, run_Lit, run_Cat, run_Cap.
  apply run_Plus_gives_back.
  - assumption.
  - apply forallb_weaken with (p := PragmaSource.in_description);
      [apply in_description_any | assumption].
  - cbn [app forallb]. apply forallb_weaken with (p := PragmaSource.in_description);
      [apply in_description_any | assumption].
  - reflexivity.
  - intros pre post E Hpre. close_group.
    rewrite run_Cat. apply run_Lit_fails.
    destruct pre as [| p pre]; [discriminate |].
    cbn [app] in E. injection E as _ E.
    destruct post as [| x post]; [reflexivity |].
    assert (Hx : PragmaSource.in_description x = true).
    { rewrite E in Hrest. apply forallb_suffix in Hrest.
      cbn in Hrest. apply andb_prop in Hrest. apply Hrest. }
    cbn [app Rx.eat]. rewrite (in_description_not_quote x Hx). reflexivity.
  - close_group.
    unfold line_rest. rewrite <- !app_assoc.
    rewrite run_Cat, run_Lit, run_Cat.
    apply run_Plus_longest;
      [reflexivity | reflexivity | apply stops_space_number; assumption |].
    rewrite run_Cat, run_Cap.
    apply run_number; [assumption | reflexivity |].
    close_group.
    rewrite run_Cat.
    apply run_Plus_longest;
      [reflexivity | reflexivity | apply stops_space_number; assumption |].
    rewrite run_Cat, run_Cap.
    apply run_number; [assumption | reflexivity |].
    close_group.
    rewrite run_Cat.
    apply run_Plus_longest;
      [reflexivity | reflexivity | apply stops_space_number; assumption |].
    rewrite run_Cat, run_Cap.
    apply run_number; [assumption | destruct step; reflexivity |].
    close_group.
    exact Hr.
Qed.

(** A parameter line at a line start is matched up to and with its line
    feed, when the text behind it does not start, after white space, like
    a number. *)
Lemma parameter_match identifier description initial minimum maximum step ws body bef :
  PragmaSource.ok
    (PragmaSource.Pragma identifier description initial minimum maximum step) = true ->
  line_start bef = true ->
  forallb Rx.space ws = true -> Rx.stops Rx.space body = true ->
  starts_with PragmaSource.numeric body = false ->
  exists e,
    Rx.exec parameter false bef
      (PragmaSource.text
         (PragmaSource.Pragma identifier description initial minimum maximum step)
       ++ ws ++ body) = Some e /\
    Rx.after e = ws ++ body.
Proof.
  intros Hok Hb Hws Hbody Hnum.
  destruct (parameter_line_front identifier description initial minimum maximum step
              (ws ++ body) bef Hok Hb) as (bef' & cp' & Hfront).
  assert (Hstep : match step with Some s => PragmaSource.number_ok s | None => true end = true).
  { cbn [PragmaSource.ok] in Hok. apply andb_prop in Hok. apply Hok. }
  destruct (parameter_line_end step ws body (length bef) bef' cp' Hstep Hws Hbody Hnum)
    as (e & He & Ha).
  exists e. split; [apply Hfront, He | exact Ha].
Qed.

(** No parameter line behind the white space: no match. *)
Lemma parameter_no_match lead body bef :
  forallb Rx.space lead = true -> Rx.stops Rx.space body = true ->
  Rx.eat (txt "#pragma") body = None ->
  Rx.exec parameter false bef (lead ++ body) = None.
Proof.
  intros Hl Hs He. unfold Rx.exec. rewrite parameter_shape, run_Cat.
  destruct (Rx.at_bol bef (lead ++ body)) eqn:Hb;
    [rewrite run_Bol by exact Hb | apply run_Bol_fails, Hb].
  unfold parameter_tail. cbn [parameter Rx.seq]. rewrite run_Cat.
  apply run_Star_fails; [exact Hl | exact Hs |].
  intros pre post E.
  rewrite run_Cat. apply run_Lit_fails.
  destruct post as [| x post]; [exact He |].
  assert (Hx : Rx.space x = true).
  { subst lead. apply forallb_suffix in Hl. cbn in Hl.
    apply andb_prop in Hl. apply Hl. }
  cbn [Rx.eat txt list_ascii_of_string app].
  rewrite (space_not_hash x Hx). reflexivity.
Qed.

(** What stands behind the last line feed holds no parameter line. *)
Lemma parameter_last_kept trailer bef :
  PragmaSource.last_ok trailer = true ->
  Rx.remove_from parameter 0 bef trailer = trailer.
Proof.
  intros H. destruct (take_drop_space trailer) as (E & Hws & Hs).
  unfold PragmaSource.last_ok in H.
  apply andb_prop in H. destruct H as [H _].
  apply andb_prop in H. destruct H as [Hl Hp].
  assert (G : Rx.remove_from parameter 0 bef (take_space trailer ++ drop_space trailer) =
              take_space trailer ++ drop_space trailer).
  { rewrite parameter_shape. apply remove_from_last; [exact Hws | exact Hl |].
    intros post b Hpost. rewrite <- parameter_shape.
    apply parameter_no_match; [exact Hpost | exact Hs |].
    apply has_prefix_none, negb_true_iff, Hp. }
  rewrite <- E in G. exact G.
Qed.

(** Behind a line of such a source, the text does not start like a number. *)
Lemma source_starts_quiet lines trailer :
  forallb PragmaSource.ok lines = true ->
  PragmaSource.last_ok trailer = true ->
  exists ws body,
    PragmaSource.source lines trailer = ws ++ body /\
    forallb Rx.space ws = true /\
    Rx.stops Rx.space body = true /\
    starts_with PragmaSource.numeric body = false.
Proof.
  intros Hok Ht. unfold PragmaSource.source.
  destruct lines as [| [identifier description initial minimum maximum step | lead l] lines];
    cbn [map concat].
  - exists (take_space trailer), (drop_space trailer).
    destruct (take_drop_space trailer) as (E & Hws & Hs).
    split; [exact E |]. split; [exact Hws |]. split; [exact Hs |].
    unfold PragmaSource.last_ok in Ht. apply andb_prop in Ht.
    apply negb_true_iff, Ht.
  - exists []. eexists. split; [reflexivity |]. split; [reflexivity |].
    split; reflexivity.
  - cbn [forallb PragmaSource.ok] in Hok.
    repeat (apply andb_prop in Hok; destruct Hok as [Hok ?]).
    exists lead. eexists. split.
    + cbn [PragmaSource.text]. rewrite <- !app_assoc. reflexivity.
    + split; [assumption |].
      destruct l as [| x l]; [discriminate |].
      cbn [app Rx.stops starts_with] in *. split; [assumption |].
      apply negb_true_iff. assumption.
Qed.

Lemma pragma_text_ends identifier description initial minimum maximum step bef :
  exists b,
    rev_append
      (PragmaSource.text
         (PragmaSource.Pragma identifier description initial minimum maximum step)) bef =
    newline :: b.
Proof.
  cbn [PragmaSource.text]. rewrite !rev_append_app. cbn [rev_append].
  eexists. reflexivity.
Qed.

Lemma pragma_source_cons x lines trailer :
  PragmaSource.source (x :: lines) trailer =
    PragmaSource.text x ++ PragmaSource.source lines trailer.
Proof. unfold PragmaSource.source. cbn [map concat]. apply eq_sym, app_assoc. Qed.

Lemma pragma_stripped_cons x lines trailer :
  PragmaSource.stripped (x :: lines) trailer =
    PragmaSource.kept x ++ PragmaSource.stripped lines trailer.
Proof. unfold PragmaSource.stripped. cbn [map concat]. apply eq_sym, app_assoc. Qed.

(** Every parameter line of a source written line by line is cut out, with
    its line feed, and the other lines stay. *)
Lemma remove_parameter_lines trailer lines : forall bef,
  line_start bef = true ->
  forallb PragmaSource.ok lines = true ->
  PragmaSource.last_ok trailer = true ->
  Rx.remove_from parameter 0 bef (PragmaSource.source lines trailer) =
    PragmaSource.stripped lines trailer.
Proof.
  induction lines as [| x lines IH]; intros bef Hb Hok Ht.
  - unfold PragmaSource.source, PragmaSource.stripped. cbn [map concat app].
    apply parameter_last_kept, Ht.
  - cbn [forallb] in Hok. apply andb_prop in Hok. destruct Hok as [Hx Hok].
    rewrite pragma_source_cons, pragma_stripped_cons.
    destruct x as [identifier description initial minimum maximum step | lead l].
    + destruct (source_starts_quiet lines trailer Hok Ht) as (ws & body & E & Hws & Hs & Hn).
      rewrite E.
      destruct (parameter_match identifier description initial minimum maximum step
                  ws body bef Hx Hb Hws Hs Hn) as (e & He & Ha).
      rewrite (remove_from_cut parameter bef _ _ e); [| reflexivity | exact He | exact Ha].
      destruct (pragma_text_ends identifier description initial minimum maximum step bef)
        as (b & Eb).
      rewrite Eb, <- E. cbn [PragmaSource.kept app].
      apply IH; [reflexivity | exact Hok | exact Ht].
    + cbn [PragmaSource.ok] in Hx.
      repeat (apply andb_prop in Hx; destruct Hx as [Hx ?]).
      cbn [PragmaSource.text PragmaSource.kept].
      rewrite <- !app_assoc. cbn [app].
      set (more := PragmaSource.source lines trailer) in *.
      assert (Hnone : forall post b, forallb Rx.space post = true ->
                Rx.exec parameter false b (post ++ l ++ newline :: more) = None).
      { intros post b Hp. apply parameter_no_match; [exact Hp | |].
        - apply stops_space_line; [apply negb_true_iff |]; assumption.
        - apply eat_none_line; [reflexivity |].
          apply has_prefix_none, negb_true_iff. assumption. }
      rewrite remove_from_stretch.
      * f_equal. destruct l as [| c l]; [discriminate |].
        cbn [app]. rewrite remove_from_keep by (apply (Hnone [] _ eq_refl)).
        f_equal.
        match goal with H : one_line (c :: l) = true |- _ =>
          cbn in H; apply andb_prop in H; destruct H as [Hc Hl] end.
        rewrite parameter_shape, remove_from_inside_line, <- parameter_shape;
          [| exact Hl | apply any_not_newline, Hc].
        f_equal. f_equal. apply IH; [reflexivity | exact Hok | exact Ht].
      * intros pre post E _. apply Hnone. subst lead.
        match goal with H : forallb Rx.space (pre ++ post) = true |- _ =>
          apply (forallb_suffix _ _ _ H) end.
Qed.

(** Where the pattern is not led astray.  In a source written line by line,
    whose parameter lines have the form
    [#pragma parameter IDENTIFIER "DESCRIPTION" INITIAL MINIMUM MAXIMUM [STEP]],
    start their line and end in a line feed, and whose other lines start
    with neither [#pragma] nor a character of a number, the removal cuts
    out exactly the parameter lines, each with its line feed, wherever
    they stand, and leaves every other line as it was. *)
Theorem parameter_lines_are_removed lines trailer :
  forallb PragmaSource.ok lines = true ->
  PragmaSource.last_ok trailer = true ->
  strip_parameters (PragmaSource.source lines trailer) =
    PragmaSource.stripped lines trailer.
Proof.
  intros Hok Ht. unfold strip_parameters, Rx.remove.
  apply remove_parameter_lines; [reflexivity | exact Hok | exact Ht].
Qed.

(** ** What a capture can hold *)

Lemma eat_some s : forall l t, Rx.eat s l = Some t -> l = s ++ t.
Proof.
  induction s as [| x s IH]; intros l t H; cbn in H.
  - inversion H. reflexivity.
  - destruct l as [| y l]; [discriminate |].
    destruct (eqc x y) eqn:E; [| discriminate].
    apply eqc_eq in E. subst y. cbn. f_equal. apply IH, H.
Qed.

(** A path through a pattern consumes characters of the pattern, and so do
    its captures. *)
Lemma matches_consumes p r cur cur' :
  Rx.leaves_in p r -> Rx.Matches r cur cur' ->
  (exists m, Rx.after cur = m ++ Rx.after cur' /\ forallb p m = true) /\
  (Rx.caps_in p (Rx.caps cur) -> Rx.caps_in p (Rx.caps cur')).
Proof.
  intros Hl M. revert Hl.
  induction M as [cur | cur Hb | s cur aft' He | c cur x t Ha Hx | c cur w t Ha Hw
                  | c cur w t Ha Hw | r cur | r cur cur' M IH | n r cur cur' M IH
                  | r1 r2 cur mid cur' M1 IH1 M2 IH2];
    intros Hl; cbn [Rx.leaves_in] in Hl; cbn [Rx.after Rx.caps].
  - split; [exists []; auto | auto].
  - split; [exists []; auto | auto].
  - split; [| auto]. exists s. split; [apply eat_some, He | exact Hl].
  - split; [| auto]. exists [x]. rewrite Ha. split; [reflexivity |].
    cbn. rewrite (Hl x Hx). reflexivity.
  - split; [| auto]. exists w. split; [exact Ha |].
    apply forallb_forall. intros x Hin. apply Hl.
    apply (proj1 (forallb_forall _ _) Hw x Hin).
  - split; [| auto]. exists w. split; [exact Ha |].
    apply forallb_forall. intros x Hin. apply Hl.
    apply (proj1 (forallb_forall _ _) Hw x Hin).
  - split; [exists []; auto | auto].
  - apply IH, Hl.
  - destruct (IH Hl) as [(m & Em & Hm) Hc].
    split; [exists m; auto |].
    intros H. unfold Rx.set_cap, Rx.between_cursors. cbn [Rx.caps Rx.after].
    constructor; [| apply Hc, H].
    cbn [snd]. rewrite Em, firstn_front. exact Hm.
  - destruct Hl as [Hl1 Hl2].
    destruct (IH1 Hl1) as [(m1 & E1 & H1) Hc1].
    destruct (IH2 Hl2) as [(m2 & E2 & H2) Hc2].
    split; [| auto].
    exists (m1 ++ m2). rewrite E1, E2, app_assoc. split; [reflexivity |].
    rewrite forallb_app, H1, H2. reflexivity.
Qed.

Lemma search_sound re : forall aft bef b e,
  Rx.search re bef aft = Some (b, e) ->
  exists bef' aft', Rx.exec re false bef' aft' = Some e.
Proof.
  induction aft as [| x aft IH]; intros bef b e H; cbn [Rx.search] in H.
  - destruct (Rx.exec re false bef []) as [e' |] eqn:E; [| discriminate].
    inversion H; subst. eauto.
  - destruct (Rx.exec re false bef (x :: aft)) as [e' |] eqn:E.
    + inversion H; subst. eauto.
    + apply IH in H. exact H.
Qed.

Lemma lookup_cap_in p n cp :
  Rx.caps_in p cp -> forallb p (Rx.lookup_cap n cp) = true.
Proof.
  induction cp as [| [i s] cp IH]; intros H; cbn; [reflexivity |].
  inversion H; subst. destruct (i =? n); [assumption | apply IH; assumption].
Qed.

Lemma captured_in p re n subject :
  Rx.leaves_in p re ->
  forallb p (Rx.captured n (Rx.rx_match re subject)) = true.
Proof.
  intros Hl. unfold Rx.rx_match.
  destruct (Rx.search re [] subject) as [[b e] |] eqn:S; [| reflexivity].
  apply search_sound in S. destruct S as (bef' & aft' & E).
  unfold Rx.exec in E. apply run_sound in E. destruct E as (cur' & M & A).
  unfold Rx.accept in A. cbn [andb] in A. inversion A; subst cur'.
  cbn [Rx.captured]. apply lookup_cap_in.
  apply (matches_consumes p re _ _ Hl M). constructor.
Qed.

Lemma version_leaves_no_percent : Rx.leaves_in (fun c => negb (eqc c "%")) version.
Proof.
  cbn. repeat split; try reflexivity;
    intros x H;
    first [rewrite (space_no_percent x H) | rewrite (word_no_percent x H)];
    reflexivity.
Qed.

(** The version line of a pass holds no place marker when the default
    holds none. *)
Lemma strip_version_no_percent glslVersion source :
  no_percent glslVersion = true ->
  no_percent (fst (strip_version glslVersion source)) = true.
Proof.
  intros H. unfold strip_version.
  destruct (Rx.hasMatch _); cbn [fst]; [| exact H].
  apply (captured_in _ version 1 source version_leaves_no_percent).
Qed.

(** ** The header of a stage *)

Lemma escape_at_plain c t : eqc c "%" = false -> escape_at (c :: t) = None.
Proof. intros H. cbn [escape_at]. rewrite H. reflexivity. Qed.

Lemma min_escape_skip v t :
  no_percent v = true -> min_escape (v ++ t) = min_escape t.
Proof.
  induction v as [| c v IH]; intros H; [reflexivity |].
  cbn in H. apply andb_prop in H. destruct H as [Hc H].
  apply negb_true_iff in Hc.
  cbn [app min_escape]. rewrite (escape_at_plain c (v ++ t) Hc). apply IH, H.
Qed.

Lemma replace_escapes_skip m a v t :
  no_percent v = true ->
  replace_escapes m a 0 (v ++ t) = v ++ replace_escapes m a 0 t.
Proof.
  induction v as [| c v IH]; intros H; [reflexivity |].
  cbn in H. apply andb_prop in H. destruct H as [Hc H].
  apply negb_true_iff in Hc.
  cbn [app replace_escapes]. rewrite (escape_at_plain c (v ++ t) Hc).
  f_equal. apply IH, H.
Qed.

(** [prefix.arg(stage)] puts the stage behind the fourth line's [#define]. *)
Lemma arg_prefix version_line stage :
  no_percent version_line = true ->
  arg (prefix version_line) stage = join [newline] (stage_header version_line stage).
Proof.
  intros H. unfold arg, prefix, header, stage_header. cbn [join].
  rewrite min_escape_skip by exact H.
  replace (min_escape _) with (Some 1) by (vm_compute; reflexivity).
  rewrite replace_escapes_skip by exact H.
  reflexivity.
Qed.

Section Header.

Context {B : Backend}.

(** Claim C5, as the code has it.  The text compiled for a stage of a pass
    is, line by line: the version line of the pass, the extension
    directive, the definition of PARAMETER_UNIFORM, the definition of the
    stage macro (VERTEX or FRAGMENT), and the line directive with its line
    feed; the stripped body follows at once.  The two stages differ in the
    stage macro only.  (The default version is taken to hold no place
    marker.) *)
Theorem stage_texts_of_a_pass source path P this this' :
  no_percent (m_glslVersion this) = true ->
  addShader3 source path P this = (inr tt, this') ->
  exists pass version_line body,
    m_shaders this' = m_shaders this ++ [pass] /\
    strip_version (m_glslVersion this) (strip_parameters source) = (version_line, body) /\
    shaders_of (m_shader pass) =
      [ (Vertex, join [newline] (stage_header version_line (txt "VERTEX")) ++ body);
        (Fragment, join [newline] (stage_header version_line (txt "FRAGMENT")) ++ body) ].
Proof.
  intros Hv H. apply addShader3_success in H. subst this'.
  assert (Hn := strip_version_no_percent (m_glslVersion this) (strip_parameters source) Hv).
  destruct (strip_version (m_glslVersion this) (strip_parameters source))
    as [version_line body] eqn:Es.
  cbn [fst] in Hn.
  eexists. exists version_line, body.
  split; [reflexivity |]. split; [reflexivity |].
  cbn [m_shader new_OpenGLShaderPass].
  unfold built_program, assemble. rewrite Es.
  cbn [shaders_of]. rewrite !arg_prefix by exact Hn. reflexivity.
Qed.

End Header.

(** * Runs on the concrete backend *)

Section Runs.

Import Fixture.

(** Claim C1 fails on the code.  The persisted path names the preset
    two.json: its first shader, a.glsl, builds, and its second cannot be
    opened.  The constructor returns without an exception, but its
    pipeline holds two passes: the pass of a.glsl, built before the
    failure, and the default pass behind it. *)
Theorem failed_preset_keeps_its_built_passes :
  let r := new_OpenGLOptions true glsl (config "two.json") in
  addShader (txt "two.json") (configured glsl (config "two.json")) =
    (inl (OpenError (txt "missing.glsl")),
     push_shader
       (new_OpenGLShaderPass (built_program glsl (txt "void main(){}")) (txt "a.glsl") [])
       (configured glsl (config "two.json"))) /\
  fst r = inr tt /\
  m_shaders (snd r) =
    [ new_OpenGLShaderPass (built_program glsl (txt "void main(){}")) (txt "a.glsl") [];
      default_pass glsl ] /\
  length (m_shaders (snd r)) = 2.
Proof. vm_compute. repeat split. Qed.

(** Claim C2 fails as worded: array.json holds the text [[]] and
    object.json the text [{}], documents that are no presets; for both
    [addShader] reports no error and adds no pass, where the one raw shader
    of the claim would have been handed to the assembler. *)
Lemma array_document_adds_no_pass :
  file_content (txt "array.json") = Some (txt "[]") /\
  fromJson (txt "[]") = DocArray [] /\
  addShader (txt "array.json") (initial glsl) = (inr tt, initial glsl) /\
  addShader (txt "array.json") (initial glsl) <>
    addShader3 (fromUtf8 (txt "[]")) (txt "array.json") [] (initial glsl) /\
  file_content (txt "object.json") = Some (txt "{}") /\
  fromJson (txt "{}") = DocObject [] /\
  addShader (txt "object.json") (initial glsl) = (inr tt, initial glsl) /\
  m_shaders (initial glsl) = [].
Proof. vm_compute. repeat split. discriminate. Qed.

Lemma unparsed_text_witness :
  addShader (txt "a.glsl") (initial glsl) =
    addShader3 (fromUtf8 (txt "void main(){}")) (txt "a.glsl") [] (initial glsl) /\
  forall this', addShader (txt "a.glsl") (initial glsl) = (inr tt, this') ->
    exists pass,
      m_shaders this' = m_shaders (initial glsl) ++ [pass] /\
      m_path pass = txt "a.glsl" /\ m_parameters pass = [].
Proof.
  apply (unparsed_text_is_one_raw_shader (txt "a.glsl") (txt "void main(){}") (initial glsl));
    vm_compute; reflexivity.
Defined.

(** Claim C3 fails as worded: of two version lines the second is cut out
    of the body as well, where the claim keeps it. *)
Lemma later_version_line_is_removed :
  let source := nl "#version 130" ++ nl "#version 140" ++ txt "void main(){}" in
  strip_version glsl source = (txt "#version 130", nl "" ++ nl "" ++ txt "void main(){}") /\
  spec_remove_first version source = nl "" ++ nl "#version 140" ++ txt "void main(){}" /\
  snd (strip_version glsl source) <> spec_remove_first version source.
Proof. vm_compute. repeat split. discriminate. Qed.

Lemma every_version_directive_witness :
  strip_version glsl
    (VersionSource.source
       [ VersionSource.Directive [] (txt " ") (txt "130") [];
         VersionSource.Other [newline] (txt "uniform float x;");
         VersionSource.Directive (txt "  ") (txt " ") (txt "140") (txt " core") ]
       (txt "void main(){}")) =
    (txt "#version 130",
     nl "" ++ nl "" ++ nl "uniform float x;" ++ nl " core" ++ txt "void main(){}").
Proof.
  apply (every_version_directive_is_removed glsl
           [ VersionSource.Directive [] (txt " ") (txt "130") [];
             VersionSource.Other [newline] (txt "uniform float x;");
             VersionSource.Directive (txt "  ") (txt " ") (txt "140") (txt " core") ]
           (txt "void main(){}"));
    vm_compute; reflexivity.
Defined.

(** Claim C4 fails as worded: without [loadConfig] the constructor returns
    an empty pipeline (and so it does for a preset that lists no shader). *)
Lemma pipeline_can_be_empty :
  m_shaders (snd (new_OpenGLOptions false glsl (config "a.glsl"))) = [] /\
  m_shaders (snd (new_OpenGLOptions true glsl (config "object.json"))) = [].
Proof. vm_compute. split; reflexivity. Qed.

Lemma pipeline_after_construction_witness :
  m_shaders (snd (new_OpenGLOptions true glsl (config "a.glsl"))) <> [].
Proof.
  apply (proj2 (pipeline_after_construction glsl (config "a.glsl"))).
  vm_compute. reflexivity.
Defined.

(** Claim C5 fails as worded: the third line of a stage is the parameter
    macro and the fourth the stage macro, not the other way round. *)
Lemma stage_macro_is_the_fourth_line :
  let source := txt "void main(){}" in
  m_shaders (snd (addShader3 source (txt "a.glsl") [] (initial glsl))) =
    [ new_OpenGLShaderPass
        (Program
           [ (Vertex,
              nl "#version 130"
                ++ nl "#extension GL_ARB_shading_language_420pack : enable"
                ++ nl "#define PARAMETER_UNIFORM"
                ++ nl "#define VERTEX"
                ++ nl "#line 1" ++ source);
             (Fragment,
              nl "#version 130"
                ++ nl "#extension GL_ARB_shading_language_420pack : enable"
                ++ nl "#define PARAMETER_UNIFORM"
                ++ nl "#define FRAGMENT"
                ++ nl "#line 1" ++ source) ]
           true)
        (txt "a.glsl") [] ] /\
  map snd (shaders_of (built_program glsl source)) <>
    [ join [newline] (spec_header glsl (txt "VERTEX")) ++ source;
      join [newline] (spec_header glsl (txt "FRAGMENT")) ++ source ].
Proof. vm_compute. split; [reflexivity | discriminate]. Qed.

Lemma stage_texts_witness :
  exists pass version_line body,
    m_shaders (snd (addShader3 (txt "void main(){}") (txt "a.glsl") [] (initial glsl))) =
      m_shaders (initial glsl) ++ [pass] /\
    strip_version (m_glslVersion (initial glsl)) (strip_parameters (txt "void main(){}")) =
      (version_line, body) /\
    shaders_of (m_shader pass) =
      [ (Vertex, join [newline] (stage_header version_line (txt "VERTEX")) ++ body);
        (Fragment, join [newline] (stage_header version_line (txt "FRAGMENT")) ++ body) ].
Proof.
  apply (stage_texts_of_a_pass (txt "void main(){}") (txt "a.glsl") [] (initial glsl));
    vm_compute; reflexivity.
Defined.

(** Claim C6 fails on the code, which misses what its comment
    [Remove parameter lines] says.  A parameter line that ends the source
    without a line feed is not removed; a blank line above a parameter
    line is removed with it; and so is the line below a parameter line
    without step, when that line starts like a number. *)
Lemma parameter_removal_misses_and_overreaches :
  let pragma := txt "#pragma parameter x " ++ q "d" ++ txt " 1 0 2" in
  strip_parameters (nl "void main(){}" ++ pragma) = nl "void main(){}" ++ pragma /\
  strip_parameters (nl "a" ++ nl "" ++ pragma ++ [newline] ++ nl "b") = nl "a" ++ nl "b" /\
  strip_parameters (pragma ++ [newline] ++ nl "0.5, 1.0);" ++ nl "b") = nl "b".
Proof. vm_compute. repeat split. Qed.

Lemma parameter_lines_witness :
  strip_parameters
    (PragmaSource.source
       [ PragmaSource.Other [] (txt "uniform float x;");
         PragmaSource.Pragma (txt "x") (txt "X amount")
           (PragmaSource.Number false (txt "0.5"))
           (PragmaSource.Number true (txt "1"))
           (PragmaSource.Number false (txt "1"))
           (Some (PragmaSource.Number false (txt ".1")));
         PragmaSource.Other [newline] (txt "void main(){");
         PragmaSource.Pragma (txt "y") (txt "Y")
           (PragmaSource.Number false (txt "1"))
           (PragmaSource.Number false (txt "0"))
           (PragmaSource.Number false (txt "2"))
           None ]
       (txt "}")) =
    nl "uniform float x;" ++ nl "" ++ nl "void main(){" ++ txt "}".
Proof.
  apply (parameter_lines_are_removed
           [ PragmaSource.Other [] (txt "uniform float x;");
             PragmaSource.Pragma (txt "x") (txt "X amount")
               (PragmaSource.Number false (txt "0.5"))
               (PragmaSource.Number true (txt "1"))
               (PragmaSource.Number false (txt "1"))
               (Some (PragmaSource.Number false (txt ".1")));
             PragmaSource.Other [newline] (txt "void main(){");
             PragmaSource.Pragma (txt "y") (txt "Y")
               (PragmaSource.Number false (txt "1"))
               (PragmaSource.Number false (txt "0"))
               (PragmaSource.Number false (txt "2"))
               None ]
           (txt "}"));
    vm_compute; reflexivity.
Defined.

Lemma linked_pass_witness :
  exists pass,
    m_shaders
      (snd (addShader3 (B := backend) (txt "void main(){}") (txt "a.glsl")
              [(txt "y", 2%Q); (txt "x", (1 # 2)%Q)] (initial glsl))) =
      m_shaders (initial glsl) ++ [pass] /\
    linked (m_shader pass) = true /\
    m_path pass = txt "a.glsl" /\
    m_parameters pass =
      map (fun p => (uniformLocation (m_shader pass) (fst p), snd p))
        (List.filter (fun p => negb (uniformLocation (m_shader pass) (fst p) =? -1)%Z)
           [(txt "y", 2%Q); (txt "x", (1 # 2)%Q)]).
Proof.
  apply (linked_pass_binds_known_parameters (B := backend)
           (txt "void main(){}") (txt "a.glsl")
           [(txt "y", 2%Q); (txt "x", (1 # 2)%Q)] (initial glsl)).
  vm_compute. reflexivity.
Defined.



End Runs.

(** * Further properties of the code *)

Section Loading.

Context {B : Backend}.

Lemma built_program_stages glslVersion source :
  built_program glslVersion source =
    Program
      [ (Vertex, stage_source "VERTEX" glslVersion source);
        (Fragment, stage_source "FRAGMENT" glslVersion source) ]
      true.
Proof. unfold built_program, stage_source. destruct (assemble _ _). reflexivity. Qed.

(** The checks of [addShader(source, path, parameters)], in their order. *)
Lemma addShader3_table source path P this :
  let v := stage_source "VERTEX" (m_glslVersion this) source in
  let f := stage_source "FRAGMENT" (m_glslVersion this) source in
  addShader3 source path P this =
    if negb (compiles Vertex v) then (inl (VertexError path), this)
    else if negb (compiles Fragment f) then (inl (FragmentError path), this)
    else if negb (links [(Vertex, v); (Fragment, f)]) then (inl (LinkError path), this)
    else (inr tt,
          push_shader
            (new_OpenGLShaderPass (built_program (m_glslVersion this) source) path P) this).
Proof.
  cbn zeta. unfold addShader3, built_program, stage_source, bind, get, modify, throw.
  destruct (assemble (m_glslVersion this) source) as [pre body].
  unfold addShaderFromSourceCode; cbn [shaders_of linked app].
  destruct (compiles Vertex _); cbn [negb]; [| reflexivity].
  destruct (compiles Fragment _); cbn [negb]; [| reflexivity].
  unfold link; cbn [shaders_of].
  destruct (links _); cbn [negb]; reflexivity.
Qed.

(** Extra X1.  [addShader(source, path, parameters)] adds a pass or leaves
    the data members alone: when it throws, the pipeline holds the passes
    it held and the settings are as they were; when it returns, the passes
    that were there are still there, in place, and one pass has been
    appended behind them, with the given path and a linked program. *)
Theorem addShader3_all_or_nothing source path P this r this' :
  addShader3 source path P this = (r, this') ->
  match r with
  | inl _ => same_settings this this' /\ m_shaders this' = m_shaders this
  | inr _ =>
      same_settings this this' /\
      exists pass,
        m_shaders this' = m_shaders this ++ [pass] /\
        m_path pass = path /\ linked (m_shader pass) = true
  end.
Proof.
  intros H. destruct (addShader3_cases source path P this) as [E | [e E]];
    rewrite E in H; inversion H; subst; clear H.
  - split; [apply same_settings_push |].
    eexists. split; [reflexivity |]. split; [reflexivity |].
    cbn [m_shader new_OpenGLShaderPass]. apply built_program_linked.
  - split; [apply same_settings_refl | reflexivity].
Qed.

(** The three ways of one entry of a preset. *)
Lemma addShader_item_table item this :
  addShader_item item this =
    if isEmpty (entry_path item) then (inl EmptyPath, this)
    else match file_content (entry_path item) with
         | None => (inl (OpenError (entry_path item)), this)
         | Some bytes =>
             addShader3 (fromUtf8 bytes) (entry_path item) (entry_parameters item) this
         end.
Proof.
  unfold addShader_item, entry_path, entry_parameters, bind, readTextFile, throw, ret.
  destruct (isEmpty _); [reflexivity |].
  destruct (file_content _); reflexivity.
Qed.

(** The outcome of [addShader(source, path, parameters)] by what the
    backend says of the source. *)
Lemma addShader3_builds source path P this :
  source_builds (m_glslVersion this) source = true ->
  addShader3 source path P this =
    (inr tt,
     push_shader
       (new_OpenGLShaderPass (built_program (m_glslVersion this) source) path P) this).
Proof.
  unfold source_builds. cbn zeta. intros H.
  apply andb_prop in H. destruct H as [H Hl].
  apply andb_prop in H. destruct H as [Hv Hf].
  rewrite addShader3_table. cbn zeta. rewrite Hv, Hf, Hl. reflexivity.
Qed.

Lemma addShader3_refused source path P this :
  source_builds (m_glslVersion this) source = false ->
  exists e,
    addShader3 source path P this = (inl e, this) /\
    stage_error (m_glslVersion this) source path e.
Proof.
  unfold source_builds, stage_error. cbn zeta. intros H.
  rewrite addShader3_table. cbn zeta.
  destruct (compiles Vertex _) eqn:Hv; cbn [negb andb] in *.
  - destruct (compiles Fragment _) eqn:Hf; cbn [negb andb] in *.
    + rewrite H. cbn [negb]. eexists. split; [reflexivity |]. cbn. auto.
    + eexists. split; [reflexivity |]. cbn. auto.
  - eexists. split; [reflexivity |]. cbn. auto.
Qed.

(** One entry, by whether it loads. *)
Lemma addShader_item_loads item this :
  entry_loads (m_glslVersion this) item = true ->
  exists pass,
    addShader_item item this = (inr tt, push_shader pass this) /\
    entry_built item pass.
Proof.
  unfold entry_loads. intros H. apply andb_prop in H. destruct H as [He H].
  apply negb_true_iff in He. rewrite addShader_item_table, He.
  destruct (file_content (entry_path item)) as [bytes |]; [| discriminate].
  rewrite (addShader3_builds _ _ _ _ H).
  eexists. split; [reflexivity |].
  unfold entry_built. cbn [m_path m_shader m_parameters new_OpenGLShaderPass].
  split; [reflexivity |]. split; [apply built_program_linked | reflexivity].
Qed.

Lemma addShader_item_fails item this :
  entry_loads (m_glslVersion this) item = false ->
  exists e,
    addShader_item item this = (inl e, this) /\
    entry_error (m_glslVersion this) item e.
Proof.
  unfold entry_loads. intros H. rewrite addShader_item_table.
  destruct (isEmpty (entry_path item)) eqn:He; cbn [negb andb] in H.
  - exists EmptyPath. split; [reflexivity | exact He].
  - destruct (file_content (entry_path item)) as [bytes |] eqn:Hf.
    + destruct (addShader3_refused (fromUtf8 bytes) (entry_path item)
                  (entry_parameters item) this H) as (e & E & C).
      exists e. split; [exact E |].
      destruct e; try contradiction;
        (split; [exact He | exists bytes; split; [exact Hf | exact C]]).
    + exists (OpenError (entry_path item)). split; [reflexivity |].
      split; [exact He |]. split; [reflexivity | exact Hf].
Qed.

(** The loop over the entries stops at the first entry that does not load:
    the passes appended are those of the entries in front of it, one for
    one and in their order, and the error is the one of that entry. *)
Lemma for_each_stops items : forall this r this',
  for_each items addShader_item this = (r, this') ->
  same_settings this this' /\
  exists extra,
    m_shaders this' = m_shaders this ++ extra /\
    match r with
    | inl e =>
        exists before failing after,
          items = before ++ failing :: after /\
          forallb (entry_loads (m_glslVersion this)) before = true /\
          entry_loads (m_glslVersion this) failing = false /\
          entry_error (m_glslVersion this) failing e /\
          Forall2 entry_built before extra
    | inr _ =>
        forallb (entry_loads (m_glslVersion this)) items = true /\
        Forall2 entry_built items extra
    end.
Proof.
  induction items as [| item items IH]; intros this r this' H; cbn [for_each] in H.
  - inversion H; subst. split; [apply same_settings_refl |].
    exists []. rewrite app_nil_r. split; [reflexivity |]. split; [reflexivity | constructor].
  - unfold bind in H.
    destruct (entry_loads (m_glslVersion this) item) eqn:L.
    + destruct (addShader_item_loads item this L) as (pass & E & Hb).
      rewrite E in H. apply IH in H. destruct H as (S2 & extra & G2 & Hr).
      assert (S1 : same_settings this (push_shader pass this)) by apply same_settings_push.
      split; [eapply same_settings_trans; eassumption |].
      exists (pass :: extra).
      split; [rewrite G2; cbn [m_shaders push_shader]; rewrite <- app_assoc; reflexivity |].
      cbn [m_glslVersion push_shader] in Hr.
      destruct r as [e | u].
      * destruct Hr as (before & failing & after & Hi & Hb1 & Hf & He & F).
        exists (item :: before), failing, after.
        split; [rewrite Hi; reflexivity |].
        split; [cbn [forallb]; rewrite L, Hb1; reflexivity |].
        split; [exact Hf |]. split; [exact He |]. constructor; assumption.
      * destruct Hr as [Hall F].
        split; [cbn [forallb]; rewrite L, Hall; reflexivity |].
        constructor; assumption.
    + destruct (addShader_item_fails item this L) as (e & E & He).
      rewrite E in H. inversion H; subst.
      split; [apply same_settings_refl |].
      exists []. rewrite app_nil_r. split; [reflexivity |].
      exists [], item, items.
      split; [reflexivity |]. split; [reflexivity |]. split; [exact L |].
      split; [exact He | constructor].
Qed.

(** Extra X2.  A preset that loads appends one pass for each of its
    entries, in the order of the entries: each pass has the path of its
    entry, a linked program, and the bindings of the parameters of its
    entry; the passes that were there stay in front. *)
Theorem preset_adds_a_pass_per_entry path bytes this this' :
  file_content path = Some bytes ->
  isNull (fromJson bytes) = false ->
  addShader path this = (inr tt, this') ->
  exists extra,
    m_shaders this' = m_shaders this ++ extra /\
    Forall2 entry_built (toArray (doc_value (fromJson bytes) (txt "shaders"))) extra.
Proof.
  intros Hf Hj H. unfold addShader, bind, readTextFile in H.
  rewrite Hf in H. cbn in H. rewrite Hj in H. cbn [negb] in H.
  apply for_each_stops in H. destruct H as (_ & extra & G & _ & F).
  exists extra. split; [exact G | exact F].
Qed.

(** Extra X3.  A preset that fails keeps what it built up to the failing
    entry: when [addShader] throws on a preset, the entries are some
    entries that load, then one that does not, then the rest; the error
    thrown is the one of that first entry that does not load; the passes
    appended are those of the entries in front of it, one for one and in
    order; the settings are as they were. *)
Theorem failed_preset_keeps_a_prefix path bytes this e this' :
  file_content path = Some bytes ->
  isNull (fromJson bytes) = false ->
  addShader path this = (inl e, this') ->
  same_settings this this' /\
  exists before failing after extra,
    toArray (doc_value (fromJson bytes) (txt "shaders")) = before ++ failing :: after /\
    forallb (entry_loads (m_glslVersion this)) before = true /\
    entry_loads (m_glslVersion this) failing = false /\
    entry_error (m_glslVersion this) failing e /\
    m_shaders this' = m_shaders this ++ extra /\
    Forall2 entry_built before extra.
Proof.
  intros Hf Hj H. unfold addShader, bind, readTextFile in H.
  rewrite Hf in H. cbn in H. rewrite Hj in H. cbn [negb] in H.
  apply for_each_stops in H.
  destruct H as (S1 & extra & G & before & failing & after & Hi & Hb & Hl & He & F).
  split; [exact S1 |]. exists before, failing, after, extra. auto 10.
Qed.

(** Extra X4.  An error thrown by [addShader(path)] has the cause its kind
    stands for.  When the file cannot be opened it is the open error of
    that path.  When the file is a single shader it is the error of the
    first check its content fails (vertex stage, then fragment stage, then
    linking), with that path.  When the file is a preset it is the error
    of one of its entries: the error with the empty message for an entry
    without a path, the open error of the entry's path when that file
    cannot be opened, and the error of the first check the content of
    that file fails otherwise, with the entry's path. *)
Theorem addShader_error_has_its_cause path this e this' :
  addShader path this = (inl e, this') ->
  match file_content path with
  | None => e = OpenError path
  | Some bytes =>
      if isNull (fromJson bytes)
      then stage_error (m_glslVersion this) (fromUtf8 bytes) path e
      else exists item,
             In item (toArray (doc_value (fromJson bytes) (txt "shaders"))) /\
             entry_error (m_glslVersion this) item e
  end.
Proof.
  unfold addShader, bind, readTextFile.
  destruct (file_content path) as [bytes |] eqn:Hf; cbn.
  - destruct (isNull (fromJson bytes)); cbn [negb]; intros H.
    + destruct (source_builds (m_glslVersion this) (fromUtf8 bytes)) eqn:Hb.
      * rewrite (addShader3_builds _ _ _ _ Hb) in H. discriminate.
      * destruct (addShader3_refused (fromUtf8 bytes) path [] this Hb) as (e' & E & C).
        rewrite E in H. inversion H; subst. exact C.
    + apply for_each_stops in H.
      destruct H as (_ & extra & _ & before & failing & after & Hi & _ & _ & He & _).
      exists failing. split; [rewrite Hi; apply in_elt | exact He].
  - intros H; inversion H; subst. reflexivity.
Qed.

(** A file that cannot be opened: [addShader(path)] throws the open error
    for that path and leaves the object as it was. *)
Lemma addShader_unreadable path this :
  file_content path = None ->
  addShader path this = (inl (OpenError path), this).
Proof.
  intros Hf. unfold addShader, bind, readTextFile. rewrite Hf. reflexivity.
Qed.

End Loading.

Section Construction.

Context {B : Backend}.

(** Extra X5.  Whatever the persisted shader path leads to, the
    constructor with [loadConfig] returns without an exception, and the
    object has the settings of the configuration: vsync on unless the
    global is 0, the frame rate of the global, [SyncWithVideo] exactly when
    that is -1, the filter of the global, and the given default version. *)
Theorem constructor_reads_the_settings glsl cfg :
  let r := new_OpenGLOptions true glsl cfg in
  fst r = inr tt /\
  vSync (snd r) = negb (video_vsync cfg =? 0)%Z /\
  framerate (snd r) = video_framerate cfg /\
  renderBehavior (snd r) =
    (if (video_framerate cfg =? -1)%Z then SyncWithVideo else TargetFramerate) /\
  m_filter (snd r) = (if (video_filter_method cfg =? 0)%Z then Nearest else Linear) /\
  m_glslVersion (snd r) = glsl.
Proof.
  cbn zeta. split; [apply new_OpenGLOptions_returns |].
  destruct (new_OpenGLOptions_settings glsl cfg) as (Hb & Hf & Hv & Hfi & Hg).
  unfold vSync, framerate, renderBehavior.
  rewrite <- Hb, <- Hf, <- Hv, <- Hfi, <- Hg. repeat split.
Qed.

(** Extra X6.  When nothing can be loaded from the persisted path, because
    it is empty or names a file that cannot be opened, the pipeline after
    construction is the default pass alone. *)
Theorem default_pass_when_nothing_loads glsl cfg :
  isEmpty (fromUtf8 (video_shader cfg)) = true \/
  file_content (fromUtf8 (video_shader cfg)) = None ->
  m_shaders (snd (new_OpenGLOptions true glsl cfg)) = [default_pass glsl].
Proof.
  intros H. rewrite new_OpenGLOptions_load.
  destruct (isEmpty (fromUtf8 (video_shader cfg))) eqn:He.
  - reflexivity.
  - destruct H as [H | H]; [discriminate |].
    unfold try_catch. rewrite (addShader_unreadable _ _ H). reflexivity.
Qed.

(** Extra X7.  A persisted path that names a readable file that is not
    JSON (a single raw shader) gives a pipeline of exactly one pass, and
    which one is decided by the backend: the pass of that shader, built
    from its content under that path and without parameters, when the
    backend compiles both stages and links them, and the default pass when
    it refuses one of the three. *)
Theorem raw_shader_gives_one_pass glsl cfg bytes :
  isEmpty (fromUtf8 (video_shader cfg)) = false ->
  file_content (fromUtf8 (video_shader cfg)) = Some bytes ->
  isNull (fromJson bytes) = true ->
  m_shaders (snd (new_OpenGLOptions true glsl cfg)) =
    [ if source_builds glsl (fromUtf8 bytes)
      then new_OpenGLShaderPass (built_program glsl (fromUtf8 bytes))
             (fromUtf8 (video_shader cfg)) []
      else default_pass glsl ].
Proof.
  intros He Hf Hj.
  rewrite new_OpenGLOptions_load, He. unfold try_catch.
  assert (E : addShader (fromUtf8 (video_shader cfg)) (configured glsl cfg) =
              addShader3 (fromUtf8 bytes) (fromUtf8 (video_shader cfg)) []
                (configured glsl cfg)).
  { unfold addShader, bind, readTextFile. rewrite Hf. cbn. rewrite Hj. reflexivity. }
  rewrite E.
  assert (G : m_glslVersion (configured glsl cfg) = glsl) by reflexivity.
  destruct (source_builds glsl (fromUtf8 bytes)) eqn:Hb; rewrite <- G in Hb.
  - rewrite (addShader3_builds _ _ _ _ Hb). reflexivity.
  - destruct (addShader3_refused (fromUtf8 bytes) (fromUtf8 (video_shader cfg)) []
                (configured glsl cfg) Hb) as (e & A & _).
    rewrite A. reflexivity.
Qed.

(** Extra X8.  The constructor with [loadConfig] followed by [save] gives
    the frame rate global back as it was, and the vsync and filter globals
    as 0 when they were 0 and as 1 otherwise. *)
Theorem construct_then_save glsl cfg cfg0 :
  let cfg' := config_after (save (snd (new_OpenGLOptions true glsl cfg)) cfg0) in
  video_framerate cfg' = video_framerate cfg /\
  video_vsync cfg' = (if (video_vsync cfg =? 0)%Z then 0 else 1)%Z /\
  video_filter_method cfg' = (if (video_filter_method cfg =? 0)%Z then 0 else 1)%Z.
Proof.
  cbn zeta.
  destruct (new_OpenGLOptions_settings glsl cfg) as (Hb & Hf & Hv & Hfi & _).
  unfold save.
  destruct (m_shaders (snd (new_OpenGLOptions true glsl cfg)));
    cbn [config_after video_framerate video_vsync video_filter_method];
    rewrite <- Hb, <- Hf, <- Hv, <- Hfi; cbn;
    (split; [| split]);
    try (destruct (video_vsync cfg =? 0)%Z; reflexivity);
    try (destruct (video_filter_method cfg =? 0)%Z; reflexivity);
    destruct (Z.eqb_spec (video_framerate cfg) (-1)); congruence.
Qed.

End Construction.

Section Saving.

Context {B : Backend}.

Lemma c_string_no_zero l : no_zero (c_string l) = true.
Proof.
  induction l as [| c l IH]; cbn; [reflexivity |].
  destruct (eqc c zero) eqn:E; cbn; [reflexivity |].
  rewrite E. exact IH.
Qed.

Lemma c_string_prefix l : exists rest, l = c_string l ++ rest.
Proof.
  induction l as [| c l IH]; cbn; [exists []; reflexivity |].
  destruct (eqc c zero); [eexists; reflexivity |].
  destruct IH as [rest E]. exists rest. cbn. rewrite <- E. reflexivity.
Qed.

Lemma c_string_whole l : no_zero l = true -> c_string l = l.
Proof.
  induction l as [| c l IH]; cbn; [reflexivity |].
  intros H. apply andb_prop in H. destruct H as [Hc H].
  apply negb_true_iff in Hc. rewrite Hc, IH by exact H. reflexivity.
Qed.

Lemma no_zero_firstn n l : no_zero l = true -> no_zero (firstn n l) = true.
Proof.
  revert l. induction n as [| n IH]; intros [| c l]; cbn; try reflexivity.
  intros H. apply andb_prop in H. destruct H as [Hc H].
  rewrite Hc, IH by exact H. reflexivity.
Qed.

(** Extra X9.  [save] never overruns [video_shader]: when the array has
    room for its terminator, the text saved is shorter than the array,
    holds no zero byte, and is the start of the path of the first pass. *)
Theorem saved_path_fits this cfg cfg' first rest :
  sizeof_video_shader <> 0 ->
  m_shaders this = first :: rest ->
  save this cfg = Saved cfg' ->
  length (video_shader cfg') < sizeof_video_shader /\
  no_zero (video_shader cfg') = true /\
  exists cut, toLocal8Bit (m_path first) = video_shader cfg' ++ cut.
Proof.
  intros Hn Hs H. unfold save in H. rewrite Hs in H.
  inversion H; subst cfg'; clear H. cbn [video_shader].
  destruct (isEmpty (toLocal8Bit (m_path first))); cbn [negb].
  - cbn. split; [lia |]. split; [reflexivity |]. eexists. reflexivity.
  - unfold qstrncpy. destruct sizeof_video_shader as [| n]; [contradiction |].
    split; [| split].
    + rewrite length_firstn. lia.
    + apply no_zero_firstn, c_string_no_zero.
    + destruct (c_string_prefix (toLocal8Bit (m_path first))) as [r E].
      exists (skipn n (c_string (toLocal8Bit (m_path first))) ++ r).
      rewrite app_assoc, firstn_skipn. exact E.
Qed.

(** Extra X10.  A path that fits is saved whole: when the path of the first
    pass holds no zero byte and is shorter than [video_shader], [save]
    leaves exactly that path in it. *)
Theorem saved_path_is_whole this cfg cfg' first rest :
  m_shaders this = first :: rest ->
  no_zero (toLocal8Bit (m_path first)) = true ->
  length (toLocal8Bit (m_path first)) < sizeof_video_shader ->
  save this cfg = Saved cfg' ->
  video_shader cfg' = toLocal8Bit (m_path first).
Proof.
  intros Hs Hz Hl H. unfold save in H. rewrite Hs in H.
  inversion H; subst cfg'; clear H. cbn [video_shader].
  destruct (toLocal8Bit (m_path first)) as [| c p] eqn:Ep; [reflexivity |].
  cbn [isEmpty negb]. unfold qstrncpy.
  destruct sizeof_video_shader as [| n]; [lia |].
  rewrite c_string_whole by exact Hz.
  apply firstn_all2. cbn [length] in *. lia.
Qed.

(** Extra X11.  [save] twice is [save] once: a second call, on the globals
    the first call left, gives the same outcome and the same globals. *)
Theorem save_twice this cfg :
  save this (config_after (save this cfg)) = save this cfg.
Proof.
  unfold save. destruct (m_shaders this) as [| first rest]; cbn [config_after].
  - reflexivity.
  - cbn [video_shader video_vsync video_framerate video_filter_method].
    destruct (isEmpty (toLocal8Bit (m_path first))); cbn [negb]; [reflexivity |].
    unfold qstrncpy. destruct sizeof_video_shader; reflexivity.
Qed.

(** Extra X12.  The default shader survives a round trip: a pipeline whose
    first pass has the empty path (the default pass) is saved as the empty
    shader path, and an object constructed from the saved globals has the
    default pass alone.  (The conversions of the backend are taken to keep
    the empty text empty.) *)
Theorem default_shader_round_trip this cfg glsl first rest :
  toLocal8Bit [] = [] -> fromUtf8 [] = [] ->
  m_shaders this = first :: rest -> m_path first = [] ->
  video_shader (config_after (save this cfg)) = [] /\
  m_shaders (snd (new_OpenGLOptions true glsl (config_after (save this cfg)))) =
    [default_pass glsl].
Proof.
  intros Ht Hu Hs Hp.
  assert (E : video_shader (config_after (save this cfg)) = []).
  { unfold save. rewrite Hs, Hp, Ht. reflexivity. }
  split; [exact E |].
  rewrite new_OpenGLOptions_load, E, Hu. reflexivity.
Qed.

End Saving.

(** ** Sources without directives *)

Lemma contains_middle needle pre : forall post,
  Fixture.contains needle (pre ++ needle ++ post) = true.
Proof.
  induction pre as [| x pre IH]; intros post; cbn [app].
  - destruct (needle ++ post) eqn:E; cbn [Fixture.contains]; rewrite <- E, eat_app; reflexivity.
  - cbn [Fixture.contains]. destruct (Rx.eat needle _); [reflexivity | apply IH].
Qed.

Lemma exec_version_needs_text bef aft e :
  Rx.exec version false bef aft = Some e ->
  exists w t, aft = w ++ txt "#version" ++ t.
Proof.
  unfold Rx.exec. intros H. apply run_sound in H. destruct H as (cur' & M & _).
  rewrite version_shape in M. unfold version_tail in M. cbn [version Rx.seq] in M.
  repeat match goal with
  | M : Rx.Matches (Rx.Cat _ _) _ _ |- _ => inversion M; subst; clear M
  | M : Rx.Matches Rx.Bol _ _ |- _ => inversion M; subst; clear M
  | M : Rx.Matches (Rx.Star _) _ _ |- _ => inversion M; subst; clear M
  | M : Rx.Matches (Rx.Cap _ _) _ _ |- _ => inversion M; subst; clear M
  | M : Rx.Matches (Rx.Lit _) _ _ |- _ => inversion M; subst; clear M
  end.
  cbn [Rx.after] in *.
  match goal with
  | Ha : aft = ?w ++ ?t, He : Rx.eat _ ?t = Some ?u |- _ =>
      apply eat_some in He; exists w, u; rewrite Ha, He; reflexivity
  end.
Qed.

Lemma exec_parameter_needs_text bef aft e :
  Rx.exec parameter false bef aft = Some e ->
  exists w t, aft = w ++ txt "#pragma" ++ t.
Proof.
  unfold Rx.exec. intros H. apply run_sound in H. destruct H as (cur' & M & _).
  rewrite parameter_shape in M. unfold parameter_tail in M. cbn [parameter Rx.seq] in M.
  inversion M as [| | | | | | | | | ? ? ? ? ? M1 M2]; subst; clear M.
  inversion M1; subst; clear M1.
  inversion M2 as [| | | | | | | | | ? ? ? ? ? M3 M4]; subst; clear M2.
  inversion M3; subst; clear M3.
  inversion M4 as [| | | | | | | | | ? ? ? ? ? M5 M6]; subst; clear M4 M6.
  inversion M5; subst; clear M5.
  cbn [Rx.after] in *.
  match goal with
  | Ha : aft = ?w ++ ?t, He : Rx.eat _ ?t = Some ?u |- _ =>
      apply eat_some in He; exists w, u; rewrite Ha, He; reflexivity
  end.
Qed.

(** A pattern that matches nowhere in a text: nothing is removed and
    nothing is found. *)
Lemma no_match_anywhere re source :
  (forall pre post, source = pre ++ post -> Rx.exec re false (rev_append pre []) post = None) ->
  Rx.remove re source = source /\ Rx.rx_match re source = None.
Proof.
  intros H. unfold Rx.remove, Rx.rx_match. split.
  - rewrite <- (app_nil_r source) at 1. rewrite remove_from_stretch.
    + cbn. apply app_nil_r.
    + intros pre post E _. rewrite app_nil_r. apply H, E.
  - rewrite <- (app_nil_r source). rewrite search_stretch.
    + cbn [Rx.search]. rewrite (H source []) by (symmetry; apply app_nil_r). reflexivity.
    + intros pre post E _. rewrite app_nil_r. apply H, E.
Qed.

(** Extra X13.  A source in which neither the text #pragma nor the text
    #version occurs is compiled as it is: nothing is removed from it, and
    its header starts with the default version of the object. *)
Theorem plain_source_is_kept glslVersion source :
  Fixture.contains (txt "#pragma") source = false ->
  Fixture.contains (txt "#version") source = false ->
  strip_parameters source = source /\
  strip_version glslVersion source = (glslVersion, source) /\
  assemble glslVersion source = (prefix glslVersion, source).
Proof.
  intros Hp Hv.
  assert (P : Rx.remove parameter source = source).
  { apply no_match_anywhere. intros pre post E.
    destruct (Rx.exec parameter false (rev_append pre []) post) as [e |] eqn:X;
      [| reflexivity].
    apply exec_parameter_needs_text in X. destruct X as (w & t & Et).
    rewrite E, Et, app_assoc, contains_middle in Hp. discriminate. }
  assert (V : Rx.rx_match version source = None).
  { apply no_match_anywhere. intros pre post E.
    destruct (Rx.exec version false (rev_append pre []) post) as [e |] eqn:X;
      [| reflexivity].
    apply exec_version_needs_text in X. destruct X as (w & t & Et).
    rewrite E, Et, app_assoc, contains_middle in Hv. discriminate. }
  assert (S : strip_version glslVersion source = (glslVersion, source)).
  { unfold strip_version. rewrite V. reflexivity. }
  split; [exact P |]. split; [exact S |].
  unfold assemble, strip_parameters. rewrite P, S. reflexivity.
Qed.

Section Passes.

Context {B : Backend}.

Lemma bind_parameters_valid shader (P : list (QString * GLfloat)) :
  Forall (fun b => fst b <> (-1)%Z) (bind_parameters shader P).
Proof.
  induction P as [| p P IH]; cbn; [constructor |].
  destruct (Z.eqb_spec (uniformLocation shader (fst p)) (-1)); [exact IH |].
  constructor; [exact n | exact IH].
Qed.

Lemma entries_built_valid items extra :
  Forall2 entry_built items extra -> Forall bindings_valid extra.
Proof.
  induction 1 as [| item pass items extra Hb _ IH]; constructor; [| exact IH].
  destruct Hb as (_ & _ & Hp). unfold bindings_valid. rewrite Hp.
  apply bind_parameters_valid.
Qed.

Lemma addShader_keeps_bindings_valid path this r this' :
  addShader path this = (r, this') ->
  Forall bindings_valid (m_shaders this) -> Forall bindings_valid (m_shaders this').
Proof.
  unfold addShader, bind, readTextFile.
  destruct (file_content path) as [bytes |]; cbn.
  - destruct (isNull (fromJson bytes)); cbn [negb]; intros H Hv.
    + destruct (addShader3_cases (fromUtf8 bytes) path [] this) as [E | [e E]];
        rewrite E in H; inversion H; subst; [| exact Hv].
      cbn [m_shaders push_shader]. apply Forall_app. split; [exact Hv |].
      constructor; [| constructor]. apply bind_parameters_valid.
    + apply for_each_stops in H. destruct H as (_ & extra & G & Hr).
      rewrite G. apply Forall_app. split; [exact Hv |].
      destruct r as [e | u].
      * destruct Hr as (before & _ & _ & _ & _ & _ & _ & F).
        apply (entries_built_valid _ _ F).
      * destruct Hr as [_ F]. apply (entries_built_valid _ _ F).
  - intros H Hv; inversion H; subst. exact Hv.
Qed.

(** Extra X14.  No pass of a constructed pipeline binds a parameter to the
    location -1: whatever the configuration and whatever the shader files
    hold, every binding of every pass after construction is a location the
    program of the pass gave for the name. *)
Theorem constructed_bindings_are_valid loadConfig glsl cfg :
  Forall bindings_valid (m_shaders (snd (new_OpenGLOptions loadConfig glsl cfg))).
Proof.
  destruct loadConfig; [| constructor].
  rewrite new_OpenGLOptions_load.
  assert (D : forall this, Forall bindings_valid (m_shaders this) ->
                Forall bindings_valid (m_shaders (snd (addDefaultShader this)))).
  { intros this Hv. rewrite addDefaultShader_run. cbn [snd m_shaders push_shader].
    apply Forall_app. split; [exact Hv |]. constructor; [| constructor]. constructor. }
  destruct (isEmpty _); [apply D; constructor |].
  unfold try_catch.
  destruct (addShader _ _) as [[e | []] this'] eqn:E;
    apply addShader_keeps_bindings_valid in E; try (constructor; fail).
  - apply D, E.
  - exact E.
Qed.

Lemma link_keeps_shaders p : shaders_of (snd (link p)) = shaders_of p.
Proof. unfold link. destruct (links _); reflexivity. Qed.

Lemma link_linked p : linked (snd (link p)) = links (shaders_of p).
Proof. unfold link. destruct (links _); reflexivity. Qed.

(** Extra X15.  [addDefaultShader] does not look at what the backend
    answers: it returns normally and appends one pass with the empty path
    and no parameter, and when the backend does not link the default
    shaders that pass has an unlinked program and the location -1 for each
    of its eight attributes and uniforms. *)
Theorem default_shader_is_added_unchecked this :
  links (shaders_of (default_program (m_glslVersion this))) = false ->
  exists pass,
    addDefaultShader this = (inr tt, push_shader pass this) /\
    m_path pass = [] /\ m_parameters pass = [] /\
    linked (m_shader pass) = false /\
    map (fun location => location pass)
      [ m_vertex_coord; m_tex_coord; m_color; m_mvp_matrix;
        m_input_size; m_output_size; m_texture_size; m_frame_count ] =
      repeat (-1)%Z 8.
Proof.
  intros H. exists (default_pass (m_glslVersion this)).
  split; [reflexivity |]. split; [reflexivity |]. split; [reflexivity |].
  assert (L : linked (default_program (m_glslVersion this)) = false).
  { revert H. unfold default_program. cbv zeta.
    rewrite link_keeps_shaders, link_linked. auto. }
  unfold default_pass, new_OpenGLShaderPass.
  cbn [m_shader map m_vertex_coord m_tex_coord m_color m_mvp_matrix
       m_input_size m_output_size m_texture_size m_frame_count].
  unfold attributeLocation, uniformLocation. rewrite L. split; reflexivity.
Qed.

(** Extra X16.  Setter calls compose member by member: a call after a call
    on the same member leaves what the later call alone would leave, and
    calls on different members give the same object in either order. *)
Theorem setter_calls_compose a b w :
  do_call a (do_call b w) =
    if same_member a b then do_call a w else do_call b (do_call a w).
Proof. destruct a, b; reflexivity. Qed.

(** Extra X17.  A session of setter calls touches neither the pipeline nor
    the default version nor the globals, however long it is. *)
Theorem session_keeps_the_pipeline cs this cfg :
  m_shaders (fst (do_calls cs (this, cfg))) = m_shaders this /\
  m_glslVersion (fst (do_calls cs (this, cfg))) = m_glslVersion this /\
  snd (do_calls cs (this, cfg)) = cfg.
Proof.
  unfold do_calls. revert this.
  induction cs as [| c cs IH]; intros this; cbn [fold_left]; [auto |].
  destruct c; cbn [do_call fst snd];
    match goal with |- context [fold_left _ cs (?t, cfg)] => destruct (IH t) as (H1 & H2 & H3) end;
    rewrite H1, H2, H3; auto.
Qed.

End Passes.

Section Limits.

Context {B : Backend}.

(** Extra X18.  A persisted preset that lists no shader leaves the object
    without a pass, and a later [save] then reads the first element of an
    empty list. *)
Theorem empty_preset_breaks_save glsl cfg cfg0 :
  names_empty_preset cfg = true ->
  m_shaders (snd (new_OpenGLOptions true glsl cfg)) = [] /\
  exists c, save (snd (new_OpenGLOptions true glsl cfg)) cfg0 = FirstOfEmptyList c.
Proof.
  unfold names_empty_preset. intros H.
  apply andb_prop in H. destruct H as [He H]. apply negb_true_iff in He.
  destruct (file_content (fromUtf8 (video_shader cfg))) as [bytes |] eqn:Hf;
    [| discriminate].
  apply andb_prop in H. destruct H as [Hj Hl]. apply negb_true_iff in Hj.
  assert (E : m_shaders (snd (new_OpenGLOptions true glsl cfg)) = []).
  { rewrite new_OpenGLOptions_load, He. unfold try_catch, addShader, bind, readTextFile.
    rewrite Hf. cbn. rewrite Hj. cbn [negb].
    destruct (toArray _); [reflexivity | discriminate]. }
  split; [exact E |]. unfold save. rewrite E. eexists. reflexivity.
Qed.

(** Extra X19.  [save] looks at the first pass only: two objects with the
    same settings and the same first pass leave the same globals, whatever
    passes follow. *)
Theorem save_ignores_later_passes a b cfg first rest_a rest_b :
  same_settings a b ->
  m_shaders a = first :: rest_a -> m_shaders b = first :: rest_b ->
  save a cfg = save b cfg.
Proof.
  intros (Hb & Hf & Hv & Hfi & _) Ha Hs. unfold save.
  rewrite Ha, Hs, Hb, Hf, Hv, Hfi. reflexivity.
Qed.

End Limits.

(** ** Extraction twice *)

Lemma pragma_stripped_is_source lines trailer :
  PragmaSource.stripped lines trailer =
    PragmaSource.source
      (List.filter
         (fun x => match x with PragmaSource.Other _ _ => true | _ => false end) lines)
      trailer.
Proof.
  unfold PragmaSource.stripped, PragmaSource.source. f_equal.
  induction lines as [| [i d a b c s | lead l] lines IH]; cbn [map concat List.filter];
    [reflexivity | exact IH |].
  cbn [PragmaSource.kept PragmaSource.text]. rewrite IH. reflexivity.
Qed.

Lemma pragma_others_kept lines :
  forallb (fun x => match x with PragmaSource.Other _ _ => true | _ => false end) lines = true ->
  map PragmaSource.kept lines = map PragmaSource.text lines.
Proof.
  induction lines as [| [i d a b c s | lead l] lines IH]; cbn; [reflexivity | discriminate |].
  intros H. rewrite IH by exact H. reflexivity.
Qed.

Lemma forallb_filter_ok (f : PragmaSource.line -> bool) lines :
  forallb PragmaSource.ok lines = true ->
  forallb PragmaSource.ok (List.filter f lines) = true /\
  forallb f (List.filter f lines) = true.
Proof.
  induction lines as [| x lines IH]; cbn; [auto |].
  intros H. apply andb_prop in H. destruct H as [Hx H].
  destruct (IH H) as [H1 H2].
  destruct (f x) eqn:E; cbn; [rewrite Hx, E |]; auto.
Qed.

(** Extra X20.  The extraction of parameter lines need not be run twice on
    a source written line by line: parameter lines of the form
    [#pragma parameter IDENTIFIER "DESCRIPTION" INITIAL MINIMUM MAXIMUM [STEP]]
    that start their line and end in a line feed, and other lines that
    start, after blank lines and indentation, with neither [#pragma] nor
    a minus sign, a dot or a digit.  What the extraction leaves of such a
    source is left as it is by a second extraction. *)
Theorem parameter_extraction_twice lines trailer :
  forallb PragmaSource.ok lines = true ->
  PragmaSource.last_ok trailer = true ->
  strip_parameters (strip_parameters (PragmaSource.source lines trailer)) =
    strip_parameters (PragmaSource.source lines trailer).
Proof.
  intros Hok Ht. unfold strip_parameters, Rx.remove.
  rewrite (remove_parameter_lines trailer lines [] eq_refl Hok Ht).
  rewrite pragma_stripped_is_source.
  destruct (forallb_filter_ok
              (fun x => match x with PragmaSource.Other _ _ => true | _ => false end)
              lines Hok) as [H1 H2].
  rewrite (remove_parameter_lines trailer _ [] eq_refl H1 Ht).
  unfold PragmaSource.stripped, PragmaSource.source.
  rewrite (pragma_others_kept _ H2). reflexivity.
Qed.

(** ** Runs of the further properties *)

Section MoreRuns.

Import Fixture.

Lemma addShader3_all_or_nothing_witness :
  same_settings (initial glsl)
    (snd (addShader3 (txt "void main(){}") (txt "a.glsl") [] (initial glsl))) /\
  exists pass,
    m_shaders (snd (addShader3 (txt "void main(){}") (txt "a.glsl") [] (initial glsl))) =
      m_shaders (initial glsl) ++ [pass] /\
    m_path pass = txt "a.glsl" /\ linked (m_shader pass) = true.
Proof.
  apply (addShader3_all_or_nothing (txt "void main(){}") (txt "a.glsl") []
           (initial glsl) (inr tt)
           (snd (addShader3 (txt "void main(){}") (txt "a.glsl") [] (initial glsl)))).
  vm_compute. reflexivity.
Defined.

Lemma preset_adds_a_pass_per_entry_witness :
  exists extra,
    m_shaders (snd (addShader (txt "one.json") (initial glsl))) =
      m_shaders (initial glsl) ++ extra /\
    Forall2 entry_built
      (toArray (doc_value (fromJson one_pass_json) (txt "shaders"))) extra.
Proof.
  apply (preset_adds_a_pass_per_entry (txt "one.json") one_pass_json (initial glsl));
    vm_compute; reflexivity.
Defined.

Lemma failed_preset_keeps_a_prefix_witness :
  same_settings (initial glsl) (snd (addShader (txt "two.json") (initial glsl))) /\
  exists before failing after extra,
    toArray (doc_value (fromJson two_pass_json) (txt "shaders")) =
      before ++ failing :: after /\
    forallb (entry_loads (m_glslVersion (initial glsl))) before = true /\
    entry_loads (m_glslVersion (initial glsl)) failing = false /\
    entry_error (m_glslVersion (initial glsl)) failing (OpenError (txt "missing.glsl")) /\
    m_shaders (snd (addShader (txt "two.json") (initial glsl))) =
      m_shaders (initial glsl) ++ extra /\
    Forall2 entry_built before extra.
Proof.
  apply (failed_preset_keeps_a_prefix (txt "two.json") two_pass_json (initial glsl)
           (OpenError (txt "missing.glsl")));
    vm_compute; reflexivity.
Defined.

Lemma addShader_error_witness :
  exists item,
    In item (toArray (doc_value (fromJson two_pass_json) (txt "shaders"))) /\
    entry_error (m_glslVersion (initial glsl)) item (OpenError (txt "missing.glsl")).
Proof.
  assert (H : addShader (txt "two.json") (initial glsl) =
              (inl (OpenError (txt "missing.glsl")),
               snd (addShader (txt "two.json") (initial glsl))))
    by (vm_compute; reflexivity).
  exact (addShader_error_has_its_cause (txt "two.json") (initial glsl)
           (OpenError (txt "missing.glsl"))
           (snd (addShader (txt "two.json") (initial glsl))) H).
Defined.

Lemma default_pass_when_nothing_loads_witness :
  m_shaders (snd (new_OpenGLOptions true glsl (config "missing.glsl"))) =
    [default_pass glsl].
Proof.
  apply (default_pass_when_nothing_loads glsl (config "missing.glsl")).
  right. vm_compute. reflexivity.
Defined.

Lemma raw_shader_gives_one_pass_witness :
  m_shaders (snd (new_OpenGLOptions true glsl (config "a.glsl"))) =
    [ if source_builds glsl (fromUtf8 (txt "void main(){}"))
      then new_OpenGLShaderPass (built_program glsl (fromUtf8 (txt "void main(){}")))
             (fromUtf8 (video_shader (config "a.glsl"))) []
      else default_pass glsl ].
Proof.
  apply (raw_shader_gives_one_pass glsl (config "a.glsl") (txt "void main(){}"));
    vm_compute; reflexivity.
Defined.

Lemma saved_path_fits_witness :
  let this := snd (new_OpenGLOptions true glsl (config "a.glsl")) in
  length (video_shader (config_after (save this (config "")))) < sizeof_video_shader /\
  no_zero (video_shader (config_after (save this (config "")))) = true /\
  exists cut,
    toLocal8Bit (txt "a.glsl") = video_shader (config_after (save this (config ""))) ++ cut.
Proof.
  apply (saved_path_fits (snd (new_OpenGLOptions true glsl (config "a.glsl"))) (config "")
           (config_after (save (snd (new_OpenGLOptions true glsl (config "a.glsl")))
                            (config "")))
           (new_OpenGLShaderPass (built_program glsl (txt "void main(){}"))
              (txt "a.glsl") []) []).
  - vm_compute. discriminate.
  - vm_compute. reflexivity.
  - vm_compute. reflexivity.
Defined.

Lemma saved_path_is_whole_witness :
  video_shader
    (config_after (save (snd (new_OpenGLOptions true glsl (config "a.glsl"))) (config ""))) =
    toLocal8Bit (txt "a.glsl").
Proof.
  apply (saved_path_is_whole (snd (new_OpenGLOptions true glsl (config "a.glsl")))
           (config "")
           (config_after (save (snd (new_OpenGLOptions true glsl (config "a.glsl")))
                            (config "")))
           (new_OpenGLShaderPass (built_program glsl (txt "void main(){}"))
              (txt "a.glsl") []) []).
  - vm_compute. reflexivity.
  - vm_compute. reflexivity.
  - vm_compute. repeat constructor.
  - vm_compute. reflexivity.
Defined.

Lemma default_shader_round_trip_witness :
  let this := snd (addDefaultShader (initial glsl)) in
  video_shader (config_after (save this (config "a.glsl"))) = [] /\
  m_shaders (snd (new_OpenGLOptions true glsl (config_after (save this (config "a.glsl"))))) =
    [default_pass glsl].
Proof.
  apply (default_shader_round_trip (snd (addDefaultShader (initial glsl)))
           (config "a.glsl") glsl (default_pass glsl) []);
    reflexivity.
Defined.

Lemma plain_source_is_kept_witness :
  strip_parameters (txt "void main(){}") = txt "void main(){}" /\
  strip_version glsl (txt "void main(){}") = (glsl, txt "void main(){}") /\
  assemble glsl (txt "void main(){}") = (prefix glsl, txt "void main(){}").
Proof.
  apply (plain_source_is_kept glsl (txt "void main(){}")); vm_compute; reflexivity.
Defined.

Lemma default_shader_is_added_unchecked_witness :
  exists pass,
    @addDefaultShader no_linker (initial glsl) = (inr tt, push_shader pass (initial glsl)) /\
    m_path pass = [] /\ m_parameters pass = [] /\
    linked (m_shader pass) = false /\
    map (fun location => location pass)
      [ m_vertex_coord; m_tex_coord; m_color; m_mvp_matrix;
        m_input_size; m_output_size; m_texture_size; m_frame_count ] =
      repeat (-1)%Z 8.
Proof.
  apply (@default_shader_is_added_unchecked no_linker (initial glsl)).
  reflexivity.
Defined.

Lemma empty_preset_breaks_save_witness :
  m_shaders (snd (new_OpenGLOptions true glsl (config "object.json"))) = [] /\
  exists c,
    save (snd (new_OpenGLOptions true glsl (config "object.json"))) (config "object.json") =
      FirstOfEmptyList c.
Proof.
  apply (empty_preset_breaks_save glsl (config "object.json") (config "object.json")).
  vm_compute. reflexivity.
Defined.

Lemma save_ignores_later_passes_witness :
  save (snd (addDefaultShader (snd (addDefaultShader (initial glsl))))) (config "a.glsl") =
    save (snd (addDefaultShader (initial glsl))) (config "a.glsl").
Proof.
  apply (save_ignores_later_passes
           (snd (addDefaultShader (snd (addDefaultShader (initial glsl)))))
           (snd (addDefaultShader (initial glsl)))
           (config "a.glsl") (default_pass glsl) [default_pass glsl] []).
  - repeat split.
  - reflexivity.
  - reflexivity.
Defined.

Lemma parameter_extraction_twice_witness :
  let source :=
    PragmaSource.source
      [ PragmaSource.Pragma (txt "x") (txt "X amount")
          (PragmaSource.Number false (txt "0.5"))
          (PragmaSource.Number true (txt "1"))
          (PragmaSource.Number false (txt "1"))
          None;
        PragmaSource.Other [newline] (txt "void main(){") ]
      (txt "}") in
  strip_parameters (strip_parameters source) = strip_parameters source.
Proof.
  apply (parameter_extraction_twice
           [ PragmaSource.Pragma (txt "x") (txt "X amount")
               (PragmaSource.Number false (txt "0.5"))
               (PragmaSource.Number true (txt "1"))
               (PragmaSource.Number false (txt "1"))
               None;
             PragmaSource.Other [newline] (txt "void main(){") ]
           (txt "}"));
    vm_compute; reflexivity.
Defined.

End MoreRuns.
